(** * Wasm callees: tier slots, exception-handler linking, import bindings

    A shallow embedding of [Source/JavaScriptCore/wasm/WasmCallee.h] and of
    the constructor of [JSWebAssemblyCalleeGroup]
    ([Source/JavaScriptCore/wasm/js/JSWebAssemblyCalleeGroup.cpp]), built with
    [ENABLE(WEBASSEMBLY)] and [ENABLE(WEBASSEMBLY_B3JIT)] on.

    Conventions.
    - A C++ class is a record; a base class is the first field of the record
      of the derived class.  A member function is a function on the record,
      named [Class_member]; a mutating member function returns the new record.
    - [Ref<T>] is a non-null address ([positive]); [RefPtr<T>] is an optional
      one.  [T] is kept as a phantom argument so that slots read as in the
      header.
    - [std::unique_ptr<T>] is the owned [T]; [FixedVector<T>] and [Vector<T>]
      are lists; a C array indexed by an enumeration is a [vec] indexed by
      [fin].
    - Raw addresses ([void*], code pointers) are [N]; the null pointer is 0.
    - A [RELEASE_ASSERT] that fails, and [RELEASE_ASSERT_NOT_REACHED], end the
      process: the function returns [Crashed]. *)

From Stdlib Require Import NArith Lia.
From stdpp Require Import base decidable option list vector strings.

Set Default Proof Using "Type".

(** ** Outcome of a call that may hit a release assertion *)

Inductive Outcome (A : Type) : Type :=
| Returned (a : A)
| Crashed.
Arguments Returned {A} a.
Arguments Crashed {A}.

Global Instance Outcome_ret : MRet Outcome := @Returned.

Global Instance Outcome_bind : MBind Outcome := fun A B k o =>
  match o with
  | Returned a => k a
  | Crashed => Crashed
  end.

Definition RELEASE_ASSERT (b : bool) : Outcome unit :=
  if b then Returned tt else Crashed.

(** ** Pointers and references *)

Abbreviation VoidPtr := N (only parsing).
Abbreviation MacroAssemblerCodePtr := N (only parsing).
Abbreviation CodeLocationLabel := N (only parsing).
Definition nullptr : N := 0%N.

Definition Ref (T : Type) : Type := positive.
Bind Scope positive_scope with Ref.
Definition RefPtr (T : Type) : Type := option (Ref T).

(** [RefPtr<T>::get()]: the raw pointer, null when the slot is empty. *)
Definition RefPtr_get {T} (p : RefPtr T) : N :=
  match p with
  | Some r => Npos r
  | None => nullptr
  end.

(** ** Enumerations *)

(** Modelled from the spec: [Wasm::CompilationMode] (WasmCompilationMode.h is
    not part of the sources).  The tiers are the five of the data model:
    Interpreter, Baseline, Optimizing, OptimizingOSREntry, EmbedderEntry; the
    header names four of them in the constructors below. *)
Inductive CompilationMode : Type :=
| LLIntMode
| BBQMode
| OMGMode
| OMGForOSREntryMode
| EmbedderEntrypointMode.

(** Modelled from the spec: [Wasm::MemoryMode] and [NumberOfMemoryModes]
    (declared in a header that is not part of the sources): a small closed
    set, bounds-checked and trap-based addressing. *)
Inductive MemoryMode : Type :=
| BoundsChecking
| Signaling.

Definition NumberOfMemoryModes : nat := 2.

Global Instance MemoryMode_eq_dec : EqDecision MemoryMode.
Proof. solve_decision. Defined.

(** [static_cast<uint8_t>(mode)], as an index into an array of
    [NumberOfMemoryModes] elements. *)
Definition MemoryMode_index (mode : MemoryMode) : fin NumberOfMemoryModes :=
  match mode with
  | BoundsChecking => 0%fin
  | Signaling => 1%fin
  end.

(** ** Exception handler records *)

Definition Tag := N.

(** Modelled from the spec: [UnlinkedHandlerInfo] and [HandlerInfo]
    (WasmHandlerInfo.h is not part of the sources).  An unlinked descriptor
    is a range in the function and a tag filter; a linked record adds the
    absolute landing-pad address.  No tag filter means catch-all. *)
Record UnlinkedHandlerInfo : Type := mkUnlinkedHandlerInfo {
  unlinkedStart : N;
  unlinkedEnd : N;
  unlinkedTag : option Tag
}.

Record HandlerInfo : Type := mkHandlerInfo {
  handlerStart : N;
  handlerEnd : N;
  handlerTag : option Tag;
  handlerNativeCode : CodeLocationLabel
}.

Global Instance HandlerInfo_eq_dec : EqDecision HandlerInfo.
Proof. solve_decision. Defined.

(** ** Types of other headers that the callees only store *)

Class WasmExternals : Type := {
  RegisterAtOffsetList : Type;
  UnlinkedWasmToWasmCall : Type;
  StackMaps : Type;
  TierUpCount : Type;
  NameSection : Type;
  FunctionCodeBlock : Type;
  (** the handler table [LLIntCallee::linkExceptionHandlers()] builds from
      the bytecode *)
  FunctionCodeBlock_exceptionHandlers : FunctionCodeBlock → list HandlerInfo;
  (** the address range an interpreter-tier callee reports for its bytecode *)
  FunctionCodeBlock_range : FunctionCodeBlock → VoidPtr * VoidPtr
}.

Definition Name := string.

(** Modelled from the spec: [IndexOrName] (WasmIndexOrName.h is not part of
    the sources): the function index within the module plus an optional
    name; empty for a callee constructed without an index. *)
Inductive IndexOrName `{WasmExternals} : Type :=
| IndexOrName_empty
| IndexOrName_make (index : N) (name : option Name * RefPtr NameSection).

Section Callees.
Context `{WasmExternals}.

(** ** [Wasm::Entrypoint] *)

(** The parts of [Compilation] that [JITCallee] reads: [code()] and the
    start and end of [codeRef().executableMemory()]. *)
Record Compilation : Type := mkCompilation {
  Compilation_code : MacroAssemblerCodePtr;
  ExecutableMemory_start : VoidPtr;
  ExecutableMemory_end : VoidPtr
}.

Record Entrypoint : Type := mkEntrypoint {
  Entrypoint_compilation : Compilation;
  Entrypoint_calleeSaveRegisters : RegisterAtOffsetList
}.

(** ** [class Callee] *)

Record Callee : Type := mkCallee {
  Callee_m_compilationMode : CompilationMode;
  Callee_m_indexOrName : IndexOrName;
  Callee_m_exceptionHandlers : list HandlerInfo
}.

Definition Callee_indexOrName (c : Callee) : IndexOrName := Callee_m_indexOrName c.
Definition Callee_compilationMode (c : Callee) : CompilationMode := Callee_m_compilationMode c.

Definition Callee_hasExceptionHandlers (c : Callee) : bool :=
  negb (bool_decide (Callee_m_exceptionHandlers c = [])).

(** Modelled from the spec: the two constructors of [Callee], declared in
    the header and defined in WasmCallee.cpp (not part of the sources).  Tier
    and identity are fixed here; the handler table starts empty. *)
Definition Callee_new (mode : CompilationMode) : Callee :=
  {| Callee_m_compilationMode := mode;
     Callee_m_indexOrName := IndexOrName_empty;
     Callee_m_exceptionHandlers := [] |}.

Definition Callee_new_indexed (mode : CompilationMode) (index : N)
    (name : option Name * RefPtr NameSection) : Callee :=
  {| Callee_m_compilationMode := mode;
     Callee_m_indexOrName := IndexOrName_make index name;
     Callee_m_exceptionHandlers := [] |}.

(** ** [class JITCallee] *)

Record JITCallee : Type := mkJITCallee {
  JITCallee_base : Callee;
  JITCallee_m_wasmToWasmCallsites : list UnlinkedWasmToWasmCall;
  JITCallee_m_entrypoint : Entrypoint
}.

Definition JITCallee_entrypoint (c : JITCallee) : MacroAssemblerCodePtr :=
  Compilation_code (Entrypoint_compilation (JITCallee_m_entrypoint c)).

Definition JITCallee_calleeSaveRegisters (c : JITCallee) : RegisterAtOffsetList :=
  Entrypoint_calleeSaveRegisters (JITCallee_m_entrypoint c).

Definition JITCallee_range (c : JITCallee) : VoidPtr * VoidPtr :=
  let start := ExecutableMemory_start (Entrypoint_compilation (JITCallee_m_entrypoint c)) in
  let end_ := ExecutableMemory_end (Entrypoint_compilation (JITCallee_m_entrypoint c)) in
  (start, end_).

(** Modelled from the spec: the two constructors of [JITCallee], declared in
    the header and defined in WasmCallee.cpp (not part of the sources): they
    pass tier and identity to [Callee] and keep the entrypoint and the
    unresolved call sites. *)
Definition JITCallee_new (mode : CompilationMode) (entrypoint : Entrypoint) : JITCallee :=
  {| JITCallee_base := Callee_new mode;
     JITCallee_m_wasmToWasmCallsites := [];
     JITCallee_m_entrypoint := entrypoint |}.

Definition JITCallee_new_indexed (mode : CompilationMode) (entrypoint : Entrypoint)
    (index : N) (name : option Name * RefPtr NameSection)
    (unlinkedCalls : list UnlinkedWasmToWasmCall) : JITCallee :=
  {| JITCallee_base := Callee_new_indexed mode index name;
     JITCallee_m_wasmToWasmCallsites := unlinkedCalls;
     JITCallee_m_entrypoint := entrypoint |}.

(** ** [class EmbedderEntrypointCallee] *)

Record EmbedderEntrypointCallee : Type := mkEmbedderEntrypointCallee {
  EmbedderEntrypointCallee_base : JITCallee
}.

Definition EmbedderEntrypointCallee_create (entrypoint : Entrypoint) : EmbedderEntrypointCallee :=
  {| EmbedderEntrypointCallee_base := JITCallee_new EmbedderEntrypointMode entrypoint |}.

(** ** [class OptimizingJITCallee] *)

Record OptimizingJITCallee : Type := mkOptimizingJITCallee {
  OptimizingJITCallee_base : JITCallee;
  OptimizingJITCallee_m_stackmaps : StackMaps
}.

(** Modelled from the spec: [HandlerInfo::initialize] (WasmHandlerInfo.h is
    not part of the sources): the linked record keeps the range and the tag
    filter of the unlinked descriptor and takes the resolved code location as
    its landing pad. *)
Definition HandlerInfo_initialize (unlinked : UnlinkedHandlerInfo)
    (location : CodeLocationLabel) : HandlerInfo :=
  {| handlerStart := unlinkedStart unlinked;
     handlerEnd := unlinkedEnd unlinked;
     handlerTag := unlinkedTag unlinked;
     handlerNativeCode := location |}.

Definition Callee_set_exceptionHandlers (handlers : list HandlerInfo) (c : Callee) : Callee :=
  {| Callee_m_compilationMode := Callee_m_compilationMode c;
     Callee_m_indexOrName := Callee_m_indexOrName c;
     Callee_m_exceptionHandlers := handlers |}.

Definition JITCallee_set_exceptionHandlers (handlers : list HandlerInfo) (c : JITCallee) : JITCallee :=
  {| JITCallee_base := Callee_set_exceptionHandlers handlers (JITCallee_base c);
     JITCallee_m_wasmToWasmCallsites := JITCallee_m_wasmToWasmCallsites c;
     JITCallee_m_entrypoint := JITCallee_m_entrypoint c |}.

(** Modelled from the spec: [OptimizingJITCallee::linkExceptionHandlers]
    (declared in the header, defined in WasmCallee.cpp, not part of the
    sources): the final table pairs each unlinked descriptor with the code
    location at the same position. *)
Definition OptimizingJITCallee_linkExceptionHandlers
    (unlinkedExceptionHandlers : list UnlinkedHandlerInfo)
    (exceptionHandlerLocations : list CodeLocationLabel)
    (c : OptimizingJITCallee) : OptimizingJITCallee :=
  {| OptimizingJITCallee_base :=
       JITCallee_set_exceptionHandlers
         (zip_with HandlerInfo_initialize unlinkedExceptionHandlers exceptionHandlerLocations)
         (OptimizingJITCallee_base c);
     OptimizingJITCallee_m_stackmaps := OptimizingJITCallee_m_stackmaps c |}.

(** The constructor: base and stack maps first, then the release assertion
    on the two sizes, then the linking. *)
Definition OptimizingJITCallee_new (mode : CompilationMode) (entrypoint : Entrypoint)
    (index : N) (name : option Name * RefPtr NameSection)
    (unlinkedCalls : list UnlinkedWasmToWasmCall) (stackmaps : StackMaps)
    (unlinkedExceptionHandlers : list UnlinkedHandlerInfo)
    (exceptionHandlerLocations : list CodeLocationLabel) : Outcome OptimizingJITCallee :=
  let this :=
    {| OptimizingJITCallee_base := JITCallee_new_indexed mode entrypoint index name unlinkedCalls;
       OptimizingJITCallee_m_stackmaps := stackmaps |} in
  _ ← RELEASE_ASSERT
        (bool_decide (length unlinkedExceptionHandlers = length exceptionHandlerLocations));
  mret (OptimizingJITCallee_linkExceptionHandlers
          unlinkedExceptionHandlers exceptionHandlerLocations this).

Definition OptimizingJITCallee_callee (c : OptimizingJITCallee) : Callee :=
  JITCallee_base (OptimizingJITCallee_base c).

(** ** [class OMGCallee] *)

Record OMGCallee : Type := mkOMGCallee {
  OMGCallee_base : OptimizingJITCallee
}.

Definition OMGCallee_create (entrypoint : Entrypoint) (index : N)
    (name : option Name * RefPtr NameSection)
    (unlinkedCalls : list UnlinkedWasmToWasmCall) (stackmaps : StackMaps)
    (exceptionHandlers : list UnlinkedHandlerInfo)
    (exceptionHandlerLocations : list CodeLocationLabel) : Outcome OMGCallee :=
  base ← OptimizingJITCallee_new OMGMode entrypoint index name unlinkedCalls stackmaps
           exceptionHandlers exceptionHandlerLocations;
  mret {| OMGCallee_base := base |}.

(** ** [class OMGForOSREntryCallee] *)

Record OMGForOSREntryCallee : Type := mkOMGForOSREntryCallee {
  OMGForOSREntryCallee_base : OptimizingJITCallee;
  OMGForOSREntryCallee_m_osrEntryScratchBufferSize : N;
  OMGForOSREntryCallee_m_loopIndex : N
}.

Definition OMGForOSREntryCallee_create (entrypoint : Entrypoint) (index : N)
    (name : option Name * RefPtr NameSection)
    (osrEntryScratchBufferSize : N) (loopIndex : N)
    (unlinkedCalls : list UnlinkedWasmToWasmCall) (stackmaps : StackMaps)
    (exceptionHandlers : list UnlinkedHandlerInfo)
    (exceptionHandlerLocations : list CodeLocationLabel) : Outcome OMGForOSREntryCallee :=
  base ← OptimizingJITCallee_new OMGForOSREntryMode entrypoint index name unlinkedCalls
           stackmaps exceptionHandlers exceptionHandlerLocations;
  mret {| OMGForOSREntryCallee_base := base;
          OMGForOSREntryCallee_m_osrEntryScratchBufferSize := osrEntryScratchBufferSize;
          OMGForOSREntryCallee_m_loopIndex := loopIndex |}.

Definition OMGForOSREntryCallee_osrEntryScratchBufferSize (c : OMGForOSREntryCallee) : N :=
  OMGForOSREntryCallee_m_osrEntryScratchBufferSize c.
Definition OMGForOSREntryCallee_loopIndex (c : OMGForOSREntryCallee) : N :=
  OMGForOSREntryCallee_m_loopIndex c.

(** ** [class BBQCallee] *)

Record BBQCallee : Type := mkBBQCallee {
  BBQCallee_base : OptimizingJITCallee;
  BBQCallee_m_osrEntryCallee : RefPtr OMGForOSREntryCallee;
  BBQCallee_m_replacement : RefPtr OMGCallee;
  BBQCallee_m_tierUpCount : TierUpCount;
  BBQCallee_m_didStartCompilingOSREntryCallee : bool
}.

(** The constructor names the base and [m_tierUpCount]; the two [RefPtr]
    members are default-constructed and the flag has the initializer
    [{ false }]. *)
Definition BBQCallee_create (entrypoint : Entrypoint) (index : N)
    (name : option Name * RefPtr NameSection) (tierUpCount : TierUpCount)
    (unlinkedCalls : list UnlinkedWasmToWasmCall) (stackmaps : StackMaps)
    (exceptionHandlers : list UnlinkedHandlerInfo)
    (exceptionHandlerLocations : list CodeLocationLabel) : Outcome BBQCallee :=
  base ← OptimizingJITCallee_new BBQMode entrypoint index name unlinkedCalls stackmaps
           exceptionHandlers exceptionHandlerLocations;
  mret {| BBQCallee_base := base;
          BBQCallee_m_osrEntryCallee := None;
          BBQCallee_m_replacement := None;
          BBQCallee_m_tierUpCount := tierUpCount;
          BBQCallee_m_didStartCompilingOSREntryCallee := false |}.

Definition BBQCallee_osrEntryCallee (c : BBQCallee) : RefPtr OMGForOSREntryCallee :=
  BBQCallee_m_osrEntryCallee c.

(** The [MemoryMode] argument is unnamed in the header: it is not read. *)
Definition BBQCallee_setOSREntryCallee (osrEntryCallee : Ref OMGForOSREntryCallee)
    (_ : MemoryMode) (c : BBQCallee) : BBQCallee :=
  {| BBQCallee_base := BBQCallee_base c;
     BBQCallee_m_osrEntryCallee := Some osrEntryCallee;
     BBQCallee_m_replacement := BBQCallee_m_replacement c;
     BBQCallee_m_tierUpCount := BBQCallee_m_tierUpCount c;
     BBQCallee_m_didStartCompilingOSREntryCallee := BBQCallee_m_didStartCompilingOSREntryCallee c |}.

Definition BBQCallee_didStartCompilingOSREntryCallee (c : BBQCallee) : bool :=
  BBQCallee_m_didStartCompilingOSREntryCallee c.

Definition BBQCallee_setDidStartCompilingOSREntryCallee (value : bool) (c : BBQCallee) : BBQCallee :=
  {| BBQCallee_base := BBQCallee_base c;
     BBQCallee_m_osrEntryCallee := BBQCallee_m_osrEntryCallee c;
     BBQCallee_m_replacement := BBQCallee_m_replacement c;
     BBQCallee_m_tierUpCount := BBQCallee_m_tierUpCount c;
     BBQCallee_m_didStartCompilingOSREntryCallee := value |}.

Definition BBQCallee_replacement (c : BBQCallee) : RefPtr OMGCallee :=
  BBQCallee_m_replacement c.

Definition BBQCallee_setReplacement (replacement : Ref OMGCallee) (c : BBQCallee) : BBQCallee :=
  {| BBQCallee_base := BBQCallee_base c;
     BBQCallee_m_osrEntryCallee := BBQCallee_m_osrEntryCallee c;
     BBQCallee_m_replacement := Some replacement;
     BBQCallee_m_tierUpCount := BBQCallee_m_tierUpCount c;
     BBQCallee_m_didStartCompilingOSREntryCallee := BBQCallee_m_didStartCompilingOSREntryCallee c |}.

Definition BBQCallee_tierUpCount (c : BBQCallee) : TierUpCount := BBQCallee_m_tierUpCount c.

(** ** [class LLIntCallee] *)

Record LLIntCallee : Type := mkLLIntCallee {
  LLIntCallee_base : Callee;
  LLIntCallee_m_replacements : vec (RefPtr JITCallee) NumberOfMemoryModes;
  LLIntCallee_m_osrEntryCallees : vec (RefPtr OMGForOSREntryCallee) NumberOfMemoryModes;
  LLIntCallee_m_codeBlock : FunctionCodeBlock;
  LLIntCallee_m_entrypoint : MacroAssemblerCodePtr
}.

(** Modelled from the spec: the constructor of [LLIntCallee] and its private
    [linkExceptionHandlers()] (declared in the header, defined in
    WasmCallee.cpp, not part of the sources).  The callee starts in the
    interpreter tier with the identity it is given and owns the bytecode; the
    members the constructor has no argument for are default-constructed: the
    [RefPtr] arrays hold null pointers and the entrypoint is null until
    [setEntrypoint]. *)
Definition LLIntCallee_create (codeBlock : FunctionCodeBlock) (index : N)
    (name : option Name * RefPtr NameSection) : LLIntCallee :=
  {| LLIntCallee_base :=
       Callee_set_exceptionHandlers (FunctionCodeBlock_exceptionHandlers codeBlock)
         (Callee_new_indexed LLIntMode index name);
     LLIntCallee_m_replacements := vreplicate NumberOfMemoryModes None;
     LLIntCallee_m_osrEntryCallees := vreplicate NumberOfMemoryModes None;
     LLIntCallee_m_codeBlock := codeBlock;
     LLIntCallee_m_entrypoint := nullptr |}.

(** Modelled from the spec: [LLIntCallee::setEntrypoint],
    [LLIntCallee::entrypoint] and [LLIntCallee::range] (declared in the
    header, defined in WasmCallee.cpp, not part of the sources).  The
    entrypoint is the one mutable address of the callee, installed after the
    interpreter is linked; the code range is fixed at construction, so it is
    read from the bytecode the callee owns. *)
Definition LLIntCallee_setEntrypoint (entrypoint : MacroAssemblerCodePtr)
    (c : LLIntCallee) : LLIntCallee :=
  {| LLIntCallee_base := LLIntCallee_base c;
     LLIntCallee_m_replacements := LLIntCallee_m_replacements c;
     LLIntCallee_m_osrEntryCallees := LLIntCallee_m_osrEntryCallees c;
     LLIntCallee_m_codeBlock := LLIntCallee_m_codeBlock c;
     LLIntCallee_m_entrypoint := entrypoint |}.

Definition LLIntCallee_entrypoint (c : LLIntCallee) : MacroAssemblerCodePtr :=
  LLIntCallee_m_entrypoint c.

Definition LLIntCallee_range (c : LLIntCallee) : VoidPtr * VoidPtr :=
  FunctionCodeBlock_range (LLIntCallee_m_codeBlock c).

Definition LLIntCallee_replacement (mode : MemoryMode) (c : LLIntCallee) : RefPtr JITCallee :=
  LLIntCallee_m_replacements c !!! MemoryMode_index mode.

Definition LLIntCallee_setReplacement (replacement : Ref JITCallee) (mode : MemoryMode)
    (c : LLIntCallee) : LLIntCallee :=
  {| LLIntCallee_base := LLIntCallee_base c;
     LLIntCallee_m_replacements :=
       vinsert (MemoryMode_index mode) (Some replacement) (LLIntCallee_m_replacements c);
     LLIntCallee_m_osrEntryCallees := LLIntCallee_m_osrEntryCallees c;
     LLIntCallee_m_codeBlock := LLIntCallee_m_codeBlock c;
     LLIntCallee_m_entrypoint := LLIntCallee_m_entrypoint c |}.

Definition LLIntCallee_osrEntryCallee (mode : MemoryMode) (c : LLIntCallee)
    : RefPtr OMGForOSREntryCallee :=
  LLIntCallee_m_osrEntryCallees c !!! MemoryMode_index mode.

Definition LLIntCallee_setOSREntryCallee (osrEntryCallee : Ref OMGForOSREntryCallee)
    (mode : MemoryMode) (c : LLIntCallee) : LLIntCallee :=
  {| LLIntCallee_base := LLIntCallee_base c;
     LLIntCallee_m_replacements := LLIntCallee_m_replacements c;
     LLIntCallee_m_osrEntryCallees :=
       vinsert (MemoryMode_index mode) (Some osrEntryCallee) (LLIntCallee_m_osrEntryCallees c);
     LLIntCallee_m_codeBlock := LLIntCallee_m_codeBlock c;
     LLIntCallee_m_entrypoint := LLIntCallee_m_entrypoint c |}.

Definition LLIntCallee_llintFunctionCodeBlock (c : LLIntCallee) : option FunctionCodeBlock :=
  Some (LLIntCallee_m_codeBlock c).

(** ** [Callee::handlerForIndex] *)

Definition HandlerInfo_contains (h : HandlerInfo) (index : N) : bool :=
  (handlerStart h <=? index)%N && (index <? handlerEnd h)%N.

Definition HandlerInfo_matches (h : HandlerInfo) (tag : option Tag) : bool :=
  match handlerTag h with
  | None => true
  | Some filter => bool_decide (tag = Some filter)
  end.

Definition HandlerInfo_width (h : HandlerInfo) : N :=
  (handlerEnd h - handlerStart h)%N.

(** [h] can handle [tag] thrown at [index]. *)
Definition HandlerInfo_candidate (index : N) (tag : option Tag) (h : HandlerInfo) : bool :=
  HandlerInfo_contains h index && HandlerInfo_matches h tag.

(** The range of [inner] lies in the range of [outer] and is not all of it. *)
Definition HandlerInfo_strictlyInside (inner outer : HandlerInfo) : Prop :=
  (handlerStart outer ≤ handlerStart inner)%N ∧
  (handlerEnd inner ≤ handlerEnd outer)%N ∧
  ((handlerStart outer < handlerStart inner)%N ∨ (handlerEnd inner < handlerEnd outer)%N).

(** One step of the scan: [h] replaces the handler found so far when it
    covers [index], accepts [tag], and its range is strictly smaller. *)
Definition HandlerInfo_better (index : N) (tag : option Tag)
    (best : option HandlerInfo) (h : HandlerInfo) : option HandlerInfo :=
  if HandlerInfo_candidate index tag h then
    match best with
    | None => Some h
    | Some b => if (HandlerInfo_width h <? HandlerInfo_width b)%N then Some h else best
    end
  else best.

(** The scan over the table, [best] being the handler found so far. *)
Definition HandlerInfo_scan (index : N) (tag : option Tag) (best : option HandlerInfo)
    (handlers : list HandlerInfo) : option HandlerInfo :=
  foldl (HandlerInfo_better index tag) best handlers.

(** Modelled from the spec: [Callee::handlerForIndex] (declared in the
    header, defined in WasmCallee.cpp, not part of the sources; the spec calls
    it handlerForRange).  A linear scan of the table for the smallest range
    that contains the address and whose tag filter accepts the thrown tag or
    is catch-all; [None] is the null pointer, no handler.  The [Instance&]
    argument is not used by what the spec describes and is left out. *)
Definition Callee_handlerForIndex (c : Callee) (index : N) (tag : option Tag)
    : option HandlerInfo :=
  HandlerInfo_scan index tag None (Callee_m_exceptionHandlers c).

(** ** Dynamic type and virtual dispatch

    A [Callee*] points to an object of one of the five final classes. *)

Inductive CalleeObject : Type :=
| IsEmbedderEntrypointCallee (c : EmbedderEntrypointCallee)
| IsOMGCallee (c : OMGCallee)
| IsOMGForOSREntryCallee (c : OMGForOSREntryCallee)
| IsBBQCallee (c : BBQCallee)
| IsLLIntCallee (c : LLIntCallee).

(** The [Callee] subobject. *)
Definition CalleeObject_callee (o : CalleeObject) : Callee :=
  match o with
  | IsEmbedderEntrypointCallee c => JITCallee_base (EmbedderEntrypointCallee_base c)
  | IsOMGCallee c => OptimizingJITCallee_callee (OMGCallee_base c)
  | IsOMGForOSREntryCallee c => OptimizingJITCallee_callee (OMGForOSREntryCallee_base c)
  | IsBBQCallee c => OptimizingJITCallee_callee (BBQCallee_base c)
  | IsLLIntCallee c => LLIntCallee_base c
  end.

Definition compilationMode (o : CalleeObject) : CompilationMode :=
  Callee_compilationMode (CalleeObject_callee o).
Definition indexOrName (o : CalleeObject) : IndexOrName :=
  Callee_indexOrName (CalleeObject_callee o).
Definition exceptionHandlers (o : CalleeObject) : list HandlerInfo :=
  Callee_m_exceptionHandlers (CalleeObject_callee o).

(** [virtual entrypoint() const = 0] *)
Definition entrypoint (o : CalleeObject) : MacroAssemblerCodePtr :=
  match o with
  | IsEmbedderEntrypointCallee c => JITCallee_entrypoint (EmbedderEntrypointCallee_base c)
  | IsOMGCallee c => JITCallee_entrypoint (OptimizingJITCallee_base (OMGCallee_base c))
  | IsOMGForOSREntryCallee c =>
      JITCallee_entrypoint (OptimizingJITCallee_base (OMGForOSREntryCallee_base c))
  | IsBBQCallee c => JITCallee_entrypoint (OptimizingJITCallee_base (BBQCallee_base c))
  | IsLLIntCallee c => LLIntCallee_entrypoint c
  end.

(** [virtual range() const = 0] *)
Definition range (o : CalleeObject) : VoidPtr * VoidPtr :=
  match o with
  | IsEmbedderEntrypointCallee c => JITCallee_range (EmbedderEntrypointCallee_base c)
  | IsOMGCallee c => JITCallee_range (OptimizingJITCallee_base (OMGCallee_base c))
  | IsOMGForOSREntryCallee c =>
      JITCallee_range (OptimizingJITCallee_base (OMGForOSREntryCallee_base c))
  | IsBBQCallee c => JITCallee_range (OptimizingJITCallee_base (BBQCallee_base c))
  | IsLLIntCallee c => LLIntCallee_range c
  end.

(** [virtual llintFunctionCodeBlock() const], null unless overridden. *)
Definition llintFunctionCodeBlock (o : CalleeObject) : option FunctionCodeBlock :=
  match o with
  | IsLLIntCallee c => LLIntCallee_llintFunctionCodeBlock c
  | _ => None
  end.

(** The tier each final class passes to its base in its constructor. *)
Definition compilationModeOfClass (o : CalleeObject) : CompilationMode :=
  match o with
  | IsEmbedderEntrypointCallee _ => EmbedderEntrypointMode
  | IsOMGCallee _ => OMGMode
  | IsOMGForOSREntryCallee _ => OMGForOSREntryMode
  | IsBBQCallee _ => BBQMode
  | IsLLIntCallee _ => LLIntMode
  end.

(** [Callee::setOSREntryCallee], the body every class without an override
    inherits: [RELEASE_ASSERT_NOT_REACHED()]. *)
Definition Callee_setOSREntryCallee (_ : Ref OMGForOSREntryCallee) (_ : MemoryMode)
    (o : CalleeObject) : Outcome CalleeObject :=
  Crashed.

(** [virtual setOSREntryCallee], with the two [final] overriders. *)
Definition setOSREntryCallee (osrEntryCallee : Ref OMGForOSREntryCallee) (mode : MemoryMode)
    (o : CalleeObject) : Outcome CalleeObject :=
  match o with
  | IsBBQCallee c => Returned (IsBBQCallee (BBQCallee_setOSREntryCallee osrEntryCallee mode c))
  | IsLLIntCallee c => Returned (IsLLIntCallee (LLIntCallee_setOSREntryCallee osrEntryCallee mode c))
  | _ => Callee_setOSREntryCallee osrEntryCallee mode o
  end.

(** ** Sequences of mutating calls

    Every non-const member function the header gives the two tiers that
    have slots, as a request; a history of a callee is a list of requests
    applied in order. *)

Inductive BBQRequest : Type :=
| BBQ_setOSREntryCallee (osrEntryCallee : Ref OMGForOSREntryCallee) (mode : MemoryMode)
| BBQ_setDidStartCompilingOSREntryCallee (value : bool)
| BBQ_setReplacement (replacement : Ref OMGCallee).

Definition BBQCallee_apply (c : BBQCallee) (r : BBQRequest) : BBQCallee :=
  match r with
  | BBQ_setOSREntryCallee e mode => BBQCallee_setOSREntryCallee e mode c
  | BBQ_setDidStartCompilingOSREntryCallee value => BBQCallee_setDidStartCompilingOSREntryCallee value c
  | BBQ_setReplacement e => BBQCallee_setReplacement e c
  end.

Definition BBQCallee_run (rs : list BBQRequest) (c : BBQCallee) : BBQCallee :=
  foldl BBQCallee_apply c rs.

Inductive LLIntRequest : Type :=
| LLInt_setEntrypoint (entrypoint : MacroAssemblerCodePtr)
| LLInt_setReplacement (replacement : Ref JITCallee) (mode : MemoryMode)
| LLInt_setOSREntryCallee (osrEntryCallee : Ref OMGForOSREntryCallee) (mode : MemoryMode).

Definition LLIntCallee_apply (c : LLIntCallee) (r : LLIntRequest) : LLIntCallee :=
  match r with
  | LLInt_setEntrypoint e => LLIntCallee_setEntrypoint e c
  | LLInt_setReplacement e mode => LLIntCallee_setReplacement e mode c
  | LLInt_setOSREntryCallee e mode => LLIntCallee_setOSREntryCallee e mode c
  end.

Definition LLIntCallee_run (rs : list LLIntRequest) (c : LLIntCallee) : LLIntCallee :=
  foldl LLIntCallee_apply c rs.

(** [o'] has the tier, the identity, the handler table and the code range
    of [o]. *)
Definition Callee_unchanged (o o' : CalleeObject) : Prop :=
  compilationMode o' = compilationMode o ∧
  indexOrName o' = indexOrName o ∧
  exceptionHandlers o' = exceptionHandlers o ∧
  range o' = range o.

End Callees.

(** * [JSWebAssemblyCalleeGroup] *)

(** [MacroAssemblerCodeRef<WasmEntryPtrTag>]: the address of the code; the
    default-constructed code ref is null. *)
Abbreviation MacroAssemblerCodeRef := N (only parsing).

(** [Wasm::BindingFailure]: the constructor's [switch] has the one case. *)
Inductive BindingFailure : Type :=
| OutOfMemory.

(** [Expected<T, E>] *)
Inductive Expected (T E : Type) : Type :=
| Expected_value (v : T)
| Unexpected (e : E).
Arguments Expected_value {T E} v.
Arguments Unexpected {T E} e.

(** What the constructor takes from WasmToJS.h and the VM: the binding
    generator [Wasm::wasmToJS], which may change the VM and adds to the bag
    of call link infos it is handed. *)
Class ImportBindingGenerator : Type := {
  VM : Type;
  CallLinkInfoBag : Type;
  CallLinkInfoBag_empty : CallLinkInfoBag;
  SignatureIndex : Type;
  wasmToJS : VM → CallLinkInfoBag → SignatureIndex → nat →
             VM * CallLinkInfoBag * Expected MacroAssemblerCodeRef BindingFailure
}.

Section CalleeGroup.
Context `{ImportBindingGenerator}.

(** What the constructor reads of [Wasm::CalleeGroup] and of
    [Wasm::ModuleInformation]. *)
Record Wasm_CalleeGroup : Type := mkWasm_CalleeGroup {
  CalleeGroup_functionImportCount : nat
}.

Record ModuleInformation : Type := mkModuleInformation {
  importFunctionSignatureIndices : list SignatureIndex
}.

(** [m_errorMessage] is a [String]: [None] is the null string. *)
Record JSWebAssemblyCalleeGroup : Type := mkJSWebAssemblyCalleeGroup {
  m_calleeGroup : Wasm_CalleeGroup;
  m_callLinkInfos : CallLinkInfoBag;
  m_errorMessage : option string;
  m_wasmToJSExitStubs : list MacroAssemblerCodeRef
}.

(** State of the constructor while it runs: the VM, the object under
    construction, and the import indices [wasmToJS] has been called with so
    far, oldest first.  The last is a ghost: nothing reads it. *)
Record Construction : Type := mkConstruction {
  construction_vm : VM;
  construction_this : JSWebAssemblyCalleeGroup;
  construction_calls : list nat
}.

(** The body of the [for] loop from [importIndex] on, with
    [remaining = functionImportCount() - importIndex] iterations to go.
    [Vector::at] crashes out of bounds; [return] inside the loop ends the
    constructor.  The [switch] covers the only [BindingFailure], so the
    [RELEASE_ASSERT_NOT_REACHED()] after it is never reached. *)
Fixpoint JSWebAssemblyCalleeGroup_bindImports (moduleInformation : ModuleInformation)
    (remaining importIndex : nat) (st : Construction) : Outcome Construction :=
  match remaining with
  | 0 => Returned st
  | S remaining' =>
      let this := construction_this st in
      match importFunctionSignatureIndices moduleInformation !! importIndex with
      | None => Crashed
      | Some signatureIndex =>
          let '(vm, callLinkInfos, binding) :=
            wasmToJS (construction_vm st) (m_callLinkInfos this) signatureIndex importIndex in
          let calls := construction_calls st ++ [importIndex] in
          match binding with
          | Unexpected OutOfMemory =>
              Returned
                {| construction_vm := vm;
                   construction_this :=
                     {| m_calleeGroup := m_calleeGroup this;
                        m_callLinkInfos := callLinkInfos;
                        m_errorMessage := Some "Out of executable memory";
                        m_wasmToJSExitStubs := m_wasmToJSExitStubs this |};
                   construction_calls := calls |}
          | Expected_value value =>
              JSWebAssemblyCalleeGroup_bindImports moduleInformation remaining' (S importIndex)
                {| construction_vm := vm;
                   construction_this :=
                     {| m_calleeGroup := m_calleeGroup this;
                        m_callLinkInfos := callLinkInfos;
                        m_errorMessage := m_errorMessage this;
                        m_wasmToJSExitStubs := <[importIndex := value]> (m_wasmToJSExitStubs this) |};
                   construction_calls := calls |}
          end
      end
  end.

(** The constructor: the member initializers, then the loop.
    [FixedVector(size)] holds [size] default-constructed code refs. *)
Definition JSWebAssemblyCalleeGroup_new (vm : VM) (calleeGroup : Wasm_CalleeGroup)
    (moduleInformation : ModuleInformation) : Outcome Construction :=
  JSWebAssemblyCalleeGroup_bindImports moduleInformation
    (CalleeGroup_functionImportCount calleeGroup) 0
    {| construction_vm := vm;
       construction_this :=
         {| m_calleeGroup := calleeGroup;
            m_callLinkInfos := CallLinkInfoBag_empty;
            m_errorMessage := None;
            m_wasmToJSExitStubs := replicate (CalleeGroup_functionImportCount calleeGroup) nullptr |};
       construction_calls := [] |}.

(** What the generator does when asked for the bindings of the imports
    [importIndex], [importIndex + 1], ... with the given signatures, one
    call each, in order: the values it returns and the state it is left in,
    or [None] as soon as one call fails. *)
Fixpoint successfulBindings (signatures : list SignatureIndex) (importIndex : nat)
    (vm : VM) (callLinkInfos : CallLinkInfoBag)
    : option (VM * CallLinkInfoBag * list MacroAssemblerCodeRef) :=
  match signatures with
  | [] => Some (vm, callLinkInfos, [])
  | signatureIndex :: signatures' =>
      match wasmToJS vm callLinkInfos signatureIndex importIndex with
      | (vm', callLinkInfos', Expected_value value) =>
          match successfulBindings signatures' (S importIndex) vm' callLinkInfos' with
          | Some (vm'', callLinkInfos'', values) => Some (vm'', callLinkInfos'', value :: values)
          | None => None
          end
      | (_, _, Unexpected _) => None
      end
  end.

End CalleeGroup.

(** * Histories read through the getters *)

(** The last value a history writes, [writes] telling what each request
    writes, if anything. *)
Definition lastWrite {R A : Type} (writes : R → option A) (history : list R) : option A :=
  last (omap writes history).

Section Writes.
Context `{WasmExternals}.

(** What a request stores into the replacement slot of [mode] and into the
    OSR-entry slot of [mode]. *)
Definition LLIntRequest_writesReplacement (mode : MemoryMode) (r : LLIntRequest)
    : option (Ref JITCallee) :=
  match r with
  | LLInt_setReplacement e m => if decide (m = mode) then Some e else None
  | _ => None
  end.

Definition LLIntRequest_writesOSREntryCallee (mode : MemoryMode) (r : LLIntRequest)
    : option (Ref OMGForOSREntryCallee) :=
  match r with
  | LLInt_setOSREntryCallee e m => if decide (m = mode) then Some e else None
  | _ => None
  end.

(** What a request stores into the replacement slot, the OSR-entry slot and
    the flag of a baseline callee. *)
Definition BBQRequest_writesReplacement (r : BBQRequest) : option (Ref OMGCallee) :=
  match r with
  | BBQ_setReplacement e => Some e
  | _ => None
  end.

Definition BBQRequest_writesOSREntryCallee (r : BBQRequest) : option (Ref OMGForOSREntryCallee) :=
  match r with
  | BBQ_setOSREntryCallee e _ => Some e
  | _ => None
  end.

Definition BBQRequest_writesDidStartCompilingOSREntryCallee (r : BBQRequest) : option bool :=
  match r with
  | BBQ_setDidStartCompilingOSREntryCallee value => Some value
  | _ => None
  end.

(** The OSR-entry slot of an object for [mode], read with the getter of its
    class; the classes without the slot have no getter. *)
Definition CalleeObject_osrEntryCallee (mode : MemoryMode) (o : CalleeObject)
    : option (RefPtr OMGForOSREntryCallee) :=
  match o with
  | IsBBQCallee c => Some (BBQCallee_osrEntryCallee c)
  | IsLLIntCallee c => Some (LLIntCallee_osrEntryCallee mode c)
  | _ => None
  end.

End Writes.

(** * [WTF::FixedVector]

    [Source/WTF/wtf/FixedVector.h]: the vector type of
    [Callee::m_exceptionHandlers] and of
    [JSWebAssemblyCalleeGroup::m_wasmToJSExitStubs].  The members that hand
    out raw pointers, iterators and byte sizes are left out. *)

Section FixedVector.
Context {T : Type} `{EqDecision T} `{Inhabited T}.

(** [EmbeddedFixedVector<T>], the storage class (EmbeddedFixedVector.h is not
    part of the sources), is taken as the array of its elements: [create]
    default-constructs them, [createFromVector] and [clone] copy them,
    [fill] overwrites them, [==] compares them. *)
Definition Storage_create (size : nat) : list T := replicate size inhabitant.
Definition Storage_createFromVector (other : list T) : list T := other.
Definition Storage_clone (storage : list T) : list T := storage.
Definition Storage_size (storage : list T) : nat := length storage.
Definition Storage_isEmpty (storage : list T) : bool := bool_decide (length storage = 0).
Definition Storage_fill (val : T) (storage : list T) : list T := replicate (length storage) val.
Definition Storage_eq (a b : list T) : bool := bool_decide (a = b).

(** [std::unique_ptr<Storage> m_storage]: [None] is the null pointer. *)
Record FixedVector : Type := mkFixedVector {
  FixedVector_m_storage : option (list T)
}.

(** [FixedVector() = default] *)
Definition FixedVector_default : FixedVector :=
  {| FixedVector_m_storage := None |}.

(** [FixedVector(const FixedVector& other)] *)
Definition FixedVector_copy (other : FixedVector) : FixedVector :=
  {| FixedVector_m_storage :=
       match FixedVector_m_storage other with
       | Some storage => Some (Storage_clone storage)
       | None => None
       end |}.

(** [FixedVector(FixedVector&& other) = default]: the new vector, and
    [other] as it is left. *)
Definition FixedVector_move (other : FixedVector) : FixedVector * FixedVector :=
  ({| FixedVector_m_storage := FixedVector_m_storage other |},
   {| FixedVector_m_storage := None |}).

(** [void swap(FixedVector<T>& other)]: [this] and [other] afterward. *)
Definition FixedVector_swap (this other : FixedVector) : FixedVector * FixedVector :=
  ({| FixedVector_m_storage := FixedVector_m_storage other |},
   {| FixedVector_m_storage := FixedVector_m_storage this |}).

(** [operator=(const FixedVector& other)]: copy, then swap; the temporary
    goes away with the old storage. *)
Definition FixedVector_assign (this other : FixedVector) : FixedVector :=
  let tmp := FixedVector_copy other in
  fst (FixedVector_swap this tmp).

(** [operator=(FixedVector&& other)].  [other] is a reference and may be the
    vector that is assigned to, so the two vectors are given by their
    addresses in a store of vectors; the result is the store afterward, and
    [None] when an address is not that of a vector.  The temporary takes the
    storage of [other] and leaves it null, [swap] exchanges the storage of
    [this] with that of the temporary, and the temporary goes away with what
    [this] held. *)
Definition FixedVector_assign_move (this other : nat) (store : list FixedVector)
    : option (list FixedVector) :=
  otherVector ← store !! other;
  let '(tmp, otherVector') := FixedVector_move otherVector in
  let store' := <[other := otherVector']> store in
  thisVector ← store' !! this;
  Some (<[this := fst (FixedVector_swap thisVector tmp)]> store').

(** [explicit FixedVector(size_t size)] *)
Definition FixedVector_new (size : nat) : FixedVector :=
  {| FixedVector_m_storage :=
       if bool_decide (size = 0) then None else Some (Storage_create size) |}.

(** [explicit FixedVector(const Vector<T, ...>& other)] and
    [operator=(const Vector<T, ...>& other)], which does not read [this]. *)
Definition FixedVector_fromVector (other : list T) : FixedVector :=
  {| FixedVector_m_storage :=
       if bool_decide (length other = 0) then None else Some (Storage_createFromVector other) |}.

Definition FixedVector_assign_vector (this : FixedVector) (other : list T) : FixedVector :=
  FixedVector_fromVector other.

(** [explicit FixedVector(Vector<T, ...>&& other)]: the new vector, and
    [other], moved from, as it is left. *)
Definition FixedVector_fromVector_move (other : list T) : FixedVector * list T :=
  let target := other in
  ({| FixedVector_m_storage :=
        if bool_decide (length target = 0) then None
        else Some (Storage_createFromVector target) |},
   []).

Definition FixedVector_size (v : FixedVector) : nat :=
  match FixedVector_m_storage v with
  | Some storage => Storage_size storage
  | None => 0
  end.

Definition FixedVector_isEmpty (v : FixedVector) : bool :=
  match FixedVector_m_storage v with
  | Some storage => Storage_isEmpty storage
  | None => true
  end.

(** The elements from [begin()] to [end()]; both are null without storage. *)
Definition FixedVector_elements (v : FixedVector) : list T :=
  match FixedVector_m_storage v with
  | Some storage => storage
  | None => []
  end.

Definition FixedVector_fill (val : T) (v : FixedVector) : FixedVector :=
  match FixedVector_m_storage v with
  | None => v
  | Some storage => {| FixedVector_m_storage := Some (Storage_fill val storage) |}
  end.

(** [operator==] and [operator!=] *)
Definition FixedVector_eq (this other : FixedVector) : bool :=
  match FixedVector_m_storage this with
  | None =>
      match FixedVector_m_storage other with
      | None => true
      | Some otherStorage => Storage_isEmpty otherStorage
      end
  | Some storage =>
      match FixedVector_m_storage other with
      | None => Storage_isEmpty storage
      | Some otherStorage => Storage_eq storage otherStorage
      end
  end.

Definition FixedVector_ne (this other : FixedVector) : bool :=
  negb (FixedVector_eq this other).

(** No storage is kept for an empty vector. *)
Definition FixedVector_compact (v : FixedVector) : Prop :=
  FixedVector_m_storage v ≠ Some [].

End FixedVector.

Arguments FixedVector T : clear implicits.

(** * Concrete instances used by the examples below *)

Definition exampleExternals : WasmExternals :=
  {| RegisterAtOffsetList := unit;
     UnlinkedWasmToWasmCall := unit;
     StackMaps := unit;
     TierUpCount := nat;
     NameSection := unit;
     FunctionCodeBlock := list HandlerInfo;
     FunctionCodeBlock_exceptionHandlers := fun handlers => handlers;
     FunctionCodeBlock_range := fun _ => (nullptr, nullptr) |}.

Section Examples.
#[local] Existing Instance exampleExternals.

Definition exampleEntrypoint : Entrypoint :=
  {| Entrypoint_compilation :=
       {| Compilation_code := 0x1000%N;
          ExecutableMemory_start := 0x1000%N;
          ExecutableMemory_end := 0x1400%N |};
     Entrypoint_calleeSaveRegisters := tt |}.

Definition exampleBBQCallee : BBQCallee :=
  {| BBQCallee_base :=
       {| OptimizingJITCallee_base := JITCallee_new_indexed BBQMode exampleEntrypoint 0%N (None, None) [];
          OptimizingJITCallee_m_stackmaps := tt |};
     BBQCallee_m_osrEntryCallee := None;
     BBQCallee_m_replacement := None;
     BBQCallee_m_tierUpCount := 0;
     BBQCallee_m_didStartCompilingOSREntryCallee := false |}.

Definition exampleLLIntCallee : LLIntCallee :=
  LLIntCallee_create [] 0%N (None, None).

(** The table of the optimizing callee of the end-to-end scenario: H1 at
    [0x100] covers [[0x10, 0x20)] and takes the tag [7]; H2 at [0x200] covers
    [[0x12, 0x18)] and takes every tag. *)
Definition exampleOuterHandler : HandlerInfo :=
  {| handlerStart := 0x10; handlerEnd := 0x20; handlerTag := Some 7%N;
     handlerNativeCode := 0x100 |}.

Definition exampleInnerHandler : HandlerInfo :=
  {| handlerStart := 0x12; handlerEnd := 0x18; handlerTag := None;
     handlerNativeCode := 0x200 |}.

Definition exampleHandlerCallee : Callee :=
  Callee_set_exceptionHandlers [exampleOuterHandler; exampleInnerHandler]
    (Callee_new_indexed OMGMode 0%N (None, None)).

(** A third handler, H3 at [0x300], for [[0x14, 0x16)] and every tag, and a
    table in which the three ranges are nested, outermost first. *)
Definition exampleInnermostHandler : HandlerInfo :=
  {| handlerStart := 0x14; handlerEnd := 0x16; handlerTag := None;
     handlerNativeCode := 0x300 |}.

Definition exampleNestedCallee : Callee :=
  Callee_set_exceptionHandlers
    [exampleOuterHandler; exampleInnerHandler; exampleInnermostHandler]
    (Callee_new_indexed OMGMode 0%N (None, None)).

Definition exampleUnlinkedHandlers : list UnlinkedHandlerInfo :=
  [ {| unlinkedStart := 0x10; unlinkedEnd := 0x20; unlinkedTag := Some 7%N |};
    {| unlinkedStart := 0x12; unlinkedEnd := 0x18; unlinkedTag := None |} ].

End Examples.

(** A generator with a budget of executable memory: the VM state is the
    number of bindings that still fit, the bag lists the imports bound so
    far, and the stub for import [i] is placed at [0x2000 + 16 * i]. *)
Definition exampleGenerator : ImportBindingGenerator :=
  {| VM := nat;
     CallLinkInfoBag := list nat;
     CallLinkInfoBag_empty := [];
     SignatureIndex := nat;
     wasmToJS := fun vm callLinkInfos _ importIndex =>
       match vm with
       | 0 => (vm, callLinkInfos, Unexpected OutOfMemory)
       | S vm' => (vm', importIndex :: callLinkInfos,
                   Expected_value (0x2000 + 16 * N.of_nat importIndex)%N)
       end |}.

(** A module with three imported functions. *)
Definition exampleCalleeGroup : Wasm_CalleeGroup :=
  {| CalleeGroup_functionImportCount := 3 |}.

Definition exampleModuleInformation : @ModuleInformation exampleGenerator :=
  @mkModuleInformation exampleGenerator [10; 11; 12].

(** * Properties of the tier slots *)

Section SlotProperties.
Context `{WasmExternals}.

(** ** Reading a slot after one request *)

Lemma LLIntCallee_replacement_setReplacement e mode mode' (c : LLIntCallee) :
  LLIntCallee_replacement mode' (LLIntCallee_setReplacement e mode c) =
    if decide (mode = mode') then Some e else LLIntCallee_replacement mode' c.
Proof.
  unfold LLIntCallee_replacement, LLIntCallee_setReplacement; simpl.
  case_decide as Hm.
  - subst. apply vlookup_insert.
  - apply vlookup_insert_ne. by destruct mode, mode'.
Qed.

Lemma LLIntCallee_osrEntryCallee_setOSREntryCallee e mode mode' (c : LLIntCallee) :
  LLIntCallee_osrEntryCallee mode' (LLIntCallee_setOSREntryCallee e mode c) =
    if decide (mode = mode') then Some e else LLIntCallee_osrEntryCallee mode' c.
Proof.
  unfold LLIntCallee_osrEntryCallee, LLIntCallee_setOSREntryCallee; simpl.
  case_decide as Hm.
  - subst. apply vlookup_insert.
  - apply vlookup_insert_ne. by destruct mode, mode'.
Qed.

Lemma LLIntCallee_apply_replacement_is_Some (c : LLIntCallee) r mode :
  is_Some (LLIntCallee_replacement mode c) →
  is_Some (LLIntCallee_replacement mode (LLIntCallee_apply c r)).
Proof.
  destruct r as [p | e m | e m]; simpl; try done.
  rewrite LLIntCallee_replacement_setReplacement. case_decide; eauto.
Qed.

Lemma LLIntCallee_apply_osrEntryCallee_is_Some (c : LLIntCallee) r mode :
  is_Some (LLIntCallee_osrEntryCallee mode c) →
  is_Some (LLIntCallee_osrEntryCallee mode (LLIntCallee_apply c r)).
Proof.
  destruct r as [p | e m | e m]; simpl; try done.
  rewrite LLIntCallee_osrEntryCallee_setOSREntryCallee. case_decide; eauto.
Qed.

Lemma BBQCallee_apply_replacement_is_Some (c : BBQCallee) r :
  is_Some (BBQCallee_replacement c) → is_Some (BBQCallee_replacement (BBQCallee_apply c r)).
Proof. destruct r; simpl; eauto. Qed.

Lemma BBQCallee_apply_osrEntryCallee_is_Some (c : BBQCallee) r :
  is_Some (BBQCallee_osrEntryCallee c) → is_Some (BBQCallee_osrEntryCallee (BBQCallee_apply c r)).
Proof. destruct r; simpl; eauto. Qed.

(** A property every request keeps is kept by every history. *)
Lemma foldl_preserves {A B} (f : A → B → A) (P : A → Prop) :
  (∀ a b, P a → P (f a b)) → ∀ l a, P a → P (foldl f a l).
Proof.
  intros Hstep l. induction l as [| b l IH]; intros a Ha; simpl; [done |].
  apply IH, Hstep, Ha.
Qed.

(** C1. Slots are never cleared: a replacement slot or an OSR-entry slot of
    an interpreter-tier callee (for any memory mode) or of a baseline callee
    that holds a callee still holds one after any sequence of the mutating
    member functions ([setReplacement], [setOSREntryCallee], and also
    [setEntrypoint] and [setDidStartCompilingOSREntryCallee]). *)
Theorem slots_never_cleared :
  (∀ (rs : list LLIntRequest) (c : LLIntCallee) (mode : MemoryMode),
     is_Some (LLIntCallee_replacement mode c) →
     is_Some (LLIntCallee_replacement mode (LLIntCallee_run rs c))) ∧
  (∀ (rs : list LLIntRequest) (c : LLIntCallee) (mode : MemoryMode),
     is_Some (LLIntCallee_osrEntryCallee mode c) →
     is_Some (LLIntCallee_osrEntryCallee mode (LLIntCallee_run rs c))) ∧
  (∀ (rs : list BBQRequest) (c : BBQCallee),
     is_Some (BBQCallee_replacement c) →
     is_Some (BBQCallee_replacement (BBQCallee_run rs c))) ∧
  (∀ (rs : list BBQRequest) (c : BBQCallee),
     is_Some (BBQCallee_osrEntryCallee c) →
     is_Some (BBQCallee_osrEntryCallee (BBQCallee_run rs c))).
Proof.
  repeat split.
  - intros rs c mode. unfold LLIntCallee_run.
    apply (foldl_preserves _ (λ c, is_Some (LLIntCallee_replacement mode c))).
    intros; by apply LLIntCallee_apply_replacement_is_Some.
  - intros rs c mode. unfold LLIntCallee_run.
    apply (foldl_preserves _ (λ c, is_Some (LLIntCallee_osrEntryCallee mode c))).
    intros; by apply LLIntCallee_apply_osrEntryCallee_is_Some.
  - intros rs c. unfold BBQCallee_run.
    apply (foldl_preserves _ (λ c, is_Some (BBQCallee_replacement c))).
    intros; by apply BBQCallee_apply_replacement_is_Some.
  - intros rs c. unfold BBQCallee_run.
    apply (foldl_preserves _ (λ c, is_Some (BBQCallee_osrEntryCallee c))).
    intros; by apply BBQCallee_apply_osrEntryCallee_is_Some.
Qed.

(** ** Publishing twice *)

Lemma vinsert_vinsert {A n} (i : fin n) (x y : A) (v : vec A n) :
  vinsert i y (vinsert i x v) = vinsert i y v.
Proof.
  apply vec_eq; intros j. destruct (decide (i = j)) as [-> | Hij].
  - by rewrite !vlookup_insert.
  - by rewrite !vlookup_insert_ne.
Qed.

(** C2 (as amended). When two callees are published into the same
    replacement slot one after the other, exactly one of them is reachable
    from the slot afterward, and it is the one published last: the callee is
    in the state it would be in had only the second been published, so
    nothing in it refers to the first. *)
Theorem last_publish_wins :
  (∀ (c : BBQCallee) (a b : Ref OMGCallee),
     let c' := BBQCallee_setReplacement b (BBQCallee_setReplacement a c) in
     BBQCallee_replacement c' = Some b ∧
     (a ≠ b → BBQCallee_replacement c' ≠ Some a) ∧
     c' = BBQCallee_setReplacement b c) ∧
  (∀ (c : LLIntCallee) (a b : Ref JITCallee) (mode : MemoryMode),
     let c' := LLIntCallee_setReplacement b mode (LLIntCallee_setReplacement a mode c) in
     LLIntCallee_replacement mode c' = Some b ∧
     (a ≠ b → LLIntCallee_replacement mode c' ≠ Some a) ∧
     c' = LLIntCallee_setReplacement b mode c).
Proof.
  split.
  - intros c a b c'. split; [done |]. split; [| done].
    intros Hab [= Hba]. by apply Hab.
  - intros c a b mode c'. subst c'.
    rewrite LLIntCallee_replacement_setReplacement, decide_True by done.
    split; [done |]. split.
    + intros Hab [= Hba]. by apply Hab.
    + unfold LLIntCallee_setReplacement; simpl. by rewrite vinsert_vinsert.
Qed.

(** ** The OSR-entry slot and the memory mode *)

(** C10. The baseline callee has one OSR-entry slot for all memory modes:
    [BBQCallee::setOSREntryCallee] does the same whatever mode it is given,
    so installing [e] under one mode and then [e'] under another leaves only
    [e'] in the slot.  The interpreter-tier callee keeps one slot per mode:
    installing under two different modes keeps both. *)
Theorem BBQCallee_osrEntryCallee_shared_across_modes :
  (∀ (c : BBQCallee) (e : Ref OMGForOSREntryCallee) (m1 m2 : MemoryMode),
     BBQCallee_setOSREntryCallee e m1 c = BBQCallee_setOSREntryCallee e m2 c) ∧
  (∀ (c : BBQCallee) (e e' : Ref OMGForOSREntryCallee) (m1 m2 : MemoryMode),
     let c' := BBQCallee_setOSREntryCallee e' m2 (BBQCallee_setOSREntryCallee e m1 c) in
     BBQCallee_osrEntryCallee c' = Some e' ∧ c' = BBQCallee_setOSREntryCallee e' m2 c) ∧
  (∀ (c : LLIntCallee) (e e' : Ref OMGForOSREntryCallee) (m1 m2 : MemoryMode),
     m1 ≠ m2 →
     let c' := LLIntCallee_setOSREntryCallee e' m2 (LLIntCallee_setOSREntryCallee e m1 c) in
     LLIntCallee_osrEntryCallee m1 c' = Some e ∧ LLIntCallee_osrEntryCallee m2 c' = Some e').
Proof.
  split; [done |]. split; [done |].
  intros c e e' m1 m2 Hne c'. subst c'. split.
  - rewrite !LLIntCallee_osrEntryCallee_setOSREntryCallee.
    rewrite decide_False by done. by rewrite decide_True.
  - rewrite LLIntCallee_osrEntryCallee_setOSREntryCallee. by rewrite decide_True.
Qed.

(** ** Which classes take an OSR-entry callee *)

(** C9. [setOSREntryCallee] called on an object whose class is [OMGCallee],
    [OMGForOSREntryCallee] or [EmbedderEntrypointCallee] runs the body of
    [Callee], which is the fatal assertion; called on a [BBQCallee] or an
    [LLIntCallee] it runs the override and returns, so when it is only called
    on these two the assertion is not reached. *)
Theorem setOSREntryCallee_dispatch (e : Ref OMGForOSREntryCallee) (mode : MemoryMode) :
  (∀ c : OMGCallee, setOSREntryCallee e mode (IsOMGCallee c) = Crashed) ∧
  (∀ c : OMGForOSREntryCallee, setOSREntryCallee e mode (IsOMGForOSREntryCallee c) = Crashed) ∧
  (∀ c : EmbedderEntrypointCallee,
     setOSREntryCallee e mode (IsEmbedderEntrypointCallee c) = Crashed) ∧
  (∀ c : BBQCallee,
     setOSREntryCallee e mode (IsBBQCallee c) =
       Returned (IsBBQCallee (BBQCallee_setOSREntryCallee e mode c))) ∧
  (∀ c : LLIntCallee,
     setOSREntryCallee e mode (IsLLIntCallee c) =
       Returned (IsLLIntCallee (LLIntCallee_setOSREntryCallee e mode c))) ∧
  (∀ o : CalleeObject,
     setOSREntryCallee e mode o = Crashed ↔
       compilationModeOfClass o ∈ [OMGMode; OMGForOSREntryMode; EmbedderEntrypointMode]).
Proof.
  do 5 (split; [done |]).
  intros o. split.
  - destruct o; simpl; intros Hc; try discriminate Hc;
      rewrite !elem_of_cons; auto.
  - destruct o; simpl; try done; intros Hin;
      repeat (apply elem_of_cons in Hin as [Hin | Hin]; [discriminate Hin |]);
      by apply elem_of_nil in Hin.
Qed.

(** ** Construction *)

Lemma OptimizingJITCallee_new_inv mode entrypoint index name unlinkedCalls stackmaps
    (unlinked : list UnlinkedHandlerInfo) (locations : list CodeLocationLabel) c :
  OptimizingJITCallee_new mode entrypoint index name unlinkedCalls stackmaps unlinked locations
    = Returned c →
  length unlinked = length locations ∧
  c = OptimizingJITCallee_linkExceptionHandlers unlinked locations
        {| OptimizingJITCallee_base := JITCallee_new_indexed mode entrypoint index name unlinkedCalls;
           OptimizingJITCallee_m_stackmaps := stackmaps |}.
Proof.
  unfold OptimizingJITCallee_new, RELEASE_ASSERT.
  case_bool_decide as Hlen; simpl; [| discriminate].
  intros [= <-]. done.
Qed.

Lemma OptimizingJITCallee_new_mismatch mode entrypoint index name unlinkedCalls stackmaps
    (unlinked : list UnlinkedHandlerInfo) (locations : list CodeLocationLabel) :
  length unlinked ≠ length locations →
  OptimizingJITCallee_new mode entrypoint index name unlinkedCalls stackmaps unlinked locations
    = Crashed.
Proof.
  intros Hlen. unfold OptimizingJITCallee_new, RELEASE_ASSERT.
  by rewrite bool_decide_false.
Qed.

Lemma OptimizingJITCallee_new_match mode entrypoint index name unlinkedCalls stackmaps
    (unlinked : list UnlinkedHandlerInfo) (locations : list CodeLocationLabel) :
  length unlinked = length locations →
  OptimizingJITCallee_new mode entrypoint index name unlinkedCalls stackmaps unlinked locations
    = Returned
        (OptimizingJITCallee_linkExceptionHandlers unlinked locations
           {| OptimizingJITCallee_base := JITCallee_new_indexed mode entrypoint index name unlinkedCalls;
              OptimizingJITCallee_m_stackmaps := stackmaps |}).
Proof.
  intros Hlen. unfold OptimizingJITCallee_new, RELEASE_ASSERT.
  by rewrite bool_decide_true.
Qed.

(** C8. A newly constructed interpreter-tier callee has, for every memory
    mode, an empty replacement slot and an empty OSR-entry slot; a newly
    constructed baseline callee has an empty replacement slot, an empty
    OSR-entry slot, and [didStartCompilingOSREntryCallee()] is false. *)
Theorem new_callee_slots_empty :
  (∀ codeBlock index name (mode : MemoryMode),
     LLIntCallee_replacement mode (LLIntCallee_create codeBlock index name) = None ∧
     LLIntCallee_osrEntryCallee mode (LLIntCallee_create codeBlock index name) = None) ∧
  (∀ entrypoint index name tierUpCount unlinkedCalls stackmaps handlers locations (c : BBQCallee),
     BBQCallee_create entrypoint index name tierUpCount unlinkedCalls stackmaps handlers locations
       = Returned c →
     BBQCallee_replacement c = None ∧
     BBQCallee_osrEntryCallee c = None ∧
     BBQCallee_didStartCompilingOSREntryCallee c = false).
Proof.
  split.
  - intros codeBlock index name mode.
    unfold LLIntCallee_replacement, LLIntCallee_osrEntryCallee, LLIntCallee_create;
      cbn [LLIntCallee_m_replacements LLIntCallee_m_osrEntryCallees].
    by rewrite !vlookup_replicate.
  - intros entrypoint index name tierUpCount unlinkedCalls stackmaps handlers locations c.
    unfold BBQCallee_create.
    destruct (OptimizingJITCallee_new _ _ _ _ _ _ _ _) as [base |]; simpl; [| discriminate].
    by intros [= <-].
Qed.

(** Each [create] gives the callee the tier of its class. *)
Lemma created_compilationMode :
  (∀ entrypoint,
     compilationMode (IsEmbedderEntrypointCallee (EmbedderEntrypointCallee_create entrypoint))
       = EmbedderEntrypointMode) ∧
  (∀ entrypoint index name unlinkedCalls stackmaps handlers locations c,
     OMGCallee_create entrypoint index name unlinkedCalls stackmaps handlers locations
       = Returned c →
     compilationMode (IsOMGCallee c) = OMGMode) ∧
  (∀ entrypoint index name size loopIndex unlinkedCalls stackmaps handlers locations c,
     OMGForOSREntryCallee_create entrypoint index name size loopIndex unlinkedCalls stackmaps
       handlers locations = Returned c →
     compilationMode (IsOMGForOSREntryCallee c) = OMGForOSREntryMode) ∧
  (∀ entrypoint index name tierUpCount unlinkedCalls stackmaps handlers locations c,
     BBQCallee_create entrypoint index name tierUpCount unlinkedCalls stackmaps handlers locations
       = Returned c →
     compilationMode (IsBBQCallee c) = BBQMode) ∧
  (∀ codeBlock index name,
     compilationMode (IsLLIntCallee (LLIntCallee_create codeBlock index name)) = LLIntMode).
Proof.
  split; [done |]. split; [| split; [| split; [| done]]].
  - intros ??????? c. unfold OMGCallee_create.
    destruct (OptimizingJITCallee_new _ _ _ _ _ _ _ _) as [base |] eqn:Hbase; [| discriminate].
    intros [= <-]. by apply OptimizingJITCallee_new_inv in Hbase as [_ ->].
  - intros ????????? c. unfold OMGForOSREntryCallee_create.
    destruct (OptimizingJITCallee_new _ _ _ _ _ _ _ _) as [base |] eqn:Hbase; [| discriminate].
    intros [= <-]. by apply OptimizingJITCallee_new_inv in Hbase as [_ ->].
  - intros ???????? c. unfold BBQCallee_create.
    destruct (OptimizingJITCallee_new _ _ _ _ _ _ _ _) as [base |] eqn:Hbase; [| discriminate].
    intros [= <-]. by apply OptimizingJITCallee_new_inv in Hbase as [_ ->].
Qed.

(** ** What the mutating member functions leave alone *)

Lemma Callee_unchanged_refl o : Callee_unchanged o o.
Proof. by repeat split. Qed.

Lemma Callee_unchanged_trans o1 o2 o3 :
  Callee_unchanged o1 o2 → Callee_unchanged o2 o3 → Callee_unchanged o1 o3.
Proof.
  unfold Callee_unchanged. intros (? & ? & ? & ?) (? & ? & ? & ?).
  repeat split; congruence.
Qed.

Lemma BBQCallee_apply_unchanged (c : BBQCallee) r :
  Callee_unchanged (IsBBQCallee c) (IsBBQCallee (BBQCallee_apply c r)).
Proof. destruct r; by repeat split. Qed.

Lemma LLIntCallee_apply_unchanged (c : LLIntCallee) r :
  Callee_unchanged (IsLLIntCallee c) (IsLLIntCallee (LLIntCallee_apply c r)).
Proof. destruct r; by repeat split. Qed.

(** C6. No mutating member function changes the tier, the identity, the
    exception-handler table or the code range of a callee: not
    [setReplacement], [setOSREntryCallee],
    [setDidStartCompilingOSREntryCallee] on a baseline callee, not
    [setEntrypoint], [setReplacement], [setOSREntryCallee] on an
    interpreter-tier callee, in any number and order, and not the virtual
    [setOSREntryCallee] on any callee on which it returns. *)
Theorem mutators_keep_tier_identity_handlers_range :
  (∀ (rs : list BBQRequest) (c : BBQCallee),
     Callee_unchanged (IsBBQCallee c) (IsBBQCallee (BBQCallee_run rs c))) ∧
  (∀ (rs : list LLIntRequest) (c : LLIntCallee),
     Callee_unchanged (IsLLIntCallee c) (IsLLIntCallee (LLIntCallee_run rs c))) ∧
  (∀ (e : Ref OMGForOSREntryCallee) (mode : MemoryMode) (o o' : CalleeObject),
     setOSREntryCallee e mode o = Returned o' → Callee_unchanged o o').
Proof.
  split; [| split].
  - intros rs c. unfold BBQCallee_run.
    apply (foldl_preserves _ (λ c', Callee_unchanged (IsBBQCallee c) (IsBBQCallee c')));
      [| apply Callee_unchanged_refl].
    intros c' r Hc'. eapply Callee_unchanged_trans; [exact Hc' |].
    apply BBQCallee_apply_unchanged.
  - intros rs c. unfold LLIntCallee_run.
    apply (foldl_preserves _ (λ c', Callee_unchanged (IsLLIntCallee c) (IsLLIntCallee c')));
      [| apply Callee_unchanged_refl].
    intros c' r Hc'. eapply Callee_unchanged_trans; [exact Hc' |].
    apply LLIntCallee_apply_unchanged.
  - intros e mode o o'. destruct o; simpl; try discriminate; intros [= <-].
    + apply (BBQCallee_apply_unchanged _ (BBQ_setOSREntryCallee e mode)).
    + apply (LLIntCallee_apply_unchanged _ (LLInt_setOSREntryCallee e mode)).
Qed.

End SlotProperties.

(** * Properties of the exception handler table *)

Section HandlerProperties.
Context `{WasmExternals}.

(** ** Linking *)

Lemma linkExceptionHandlers_table (unlinked : list UnlinkedHandlerInfo)
    (locations : list CodeLocationLabel) (c : OptimizingJITCallee) :
  Callee_m_exceptionHandlers
    (OptimizingJITCallee_callee (OptimizingJITCallee_linkExceptionHandlers unlinked locations c))
  = zip_with HandlerInfo_initialize unlinked locations.
Proof. done. Qed.

(** C3. The constructor of [OptimizingJITCallee], the one caller of
    [linkExceptionHandlers], checks the precondition: when the two lists
    differ in length it always crashes on the release assertion; when both
    have length [n] it returns a callee whose handler table has [n] records,
    and for every [i < n] record [i] has the range and the tag filter of the
    [i]-th unlinked descriptor and the [i]-th code location as its landing
    pad. *)
Theorem linkExceptionHandlers_checked_and_pairwise mode entrypoint index name unlinkedCalls
    stackmaps (unlinked : list UnlinkedHandlerInfo) (locations : list CodeLocationLabel) :
  (length unlinked ≠ length locations →
     OptimizingJITCallee_new mode entrypoint index name unlinkedCalls stackmaps unlinked locations
       = Crashed) ∧
  (length unlinked = length locations →
     ∃ c : OptimizingJITCallee,
       OptimizingJITCallee_new mode entrypoint index name unlinkedCalls stackmaps unlinked locations
         = Returned c ∧
       let table := Callee_m_exceptionHandlers (OptimizingJITCallee_callee c) in
       length table = length unlinked ∧
       ∀ i, i < length unlinked →
         ∃ u l h,
           unlinked !! i = Some u ∧ locations !! i = Some l ∧ table !! i = Some h ∧
           handlerStart h = unlinkedStart u ∧
           handlerEnd h = unlinkedEnd u ∧
           handlerTag h = unlinkedTag u ∧
           handlerNativeCode h = l).
Proof.
  split.
  - apply OptimizingJITCallee_new_mismatch.
  - intros Hlen. eexists. split; [by apply OptimizingJITCallee_new_match |].
    rewrite linkExceptionHandlers_table. cbv zeta. split.
    + by apply length_zip_with_l_eq.
    + intros i Hi.
      destruct (lookup_lt_is_Some_2 unlinked i Hi) as [u Hu].
      destruct (lookup_lt_is_Some_2 locations i) as [l Hl]; [lia |].
      exists u, l, (HandlerInfo_initialize u l).
      rewrite lookup_zip_with, Hu, Hl. by repeat split.
Qed.

(** The three [create] functions go through that constructor. *)
Lemma create_crashes_on_mismatch entrypoint index name unlinkedCalls stackmaps
    (unlinked : list UnlinkedHandlerInfo) (locations : list CodeLocationLabel) :
  length unlinked ≠ length locations →
  OMGCallee_create entrypoint index name unlinkedCalls stackmaps unlinked locations = Crashed ∧
  (∀ size loopIndex,
     OMGForOSREntryCallee_create entrypoint index name size loopIndex unlinkedCalls stackmaps
       unlinked locations = Crashed) ∧
  (∀ tierUpCount,
     BBQCallee_create entrypoint index name tierUpCount unlinkedCalls stackmaps
       unlinked locations = Crashed).
Proof.
  intros Hlen.
  unfold OMGCallee_create, OMGForOSREntryCallee_create, BBQCallee_create.
  repeat split; intros; by rewrite OptimizingJITCallee_new_mismatch.
Qed.

(** ** Lookup *)

Section Scan.
Variables (index : N) (tag : option Tag).

Lemma HandlerInfo_better_skip best h :
  HandlerInfo_candidate index tag h = false → HandlerInfo_better index tag best h = best.
Proof. unfold HandlerInfo_better. by intros ->. Qed.

(** Records that are not candidates do not change the result. *)
Lemma scan_no_candidate handlers best :
  (∀ h, h ∈ handlers → HandlerInfo_candidate index tag h = false) →
  HandlerInfo_scan index tag best handlers = best.
Proof.
  revert best. induction handlers as [| h handlers IH]; intros best Hnone; [done |].
  unfold HandlerInfo_scan in *; simpl. rewrite HandlerInfo_better_skip.
  - apply IH. intros h' Hh'. apply Hnone. by right.
  - apply Hnone. by left.
Qed.

(** The result is the handler the scan started with or a candidate of the
    table. *)
Lemma scan_origin handlers best r :
  HandlerInfo_scan index tag best handlers = Some r →
  best = Some r ∨ (r ∈ handlers ∧ HandlerInfo_candidate index tag r = true).
Proof.
  revert best. induction handlers as [| h handlers IH]; intros best Hscan; [by left |].
  unfold HandlerInfo_scan in *; simpl in Hscan. apply IH in Hscan as [Hbest | [Hin Hcand]].
  - unfold HandlerInfo_better in Hbest.
    destruct (HandlerInfo_candidate index tag h) eqn:Hh; [| by left].
    destruct best as [b |].
    + destruct (HandlerInfo_width h <? HandlerInfo_width b)%N; [| by left].
      injection Hbest as <-. right. split; [by left | done].
    + injection Hbest as <-. right. split; [by left | done].
  - right. split; [by right | done].
Qed.

(** Once a handler is found, one is returned. *)
Lemma scan_is_Some handlers best :
  is_Some best → is_Some (HandlerInfo_scan index tag best handlers).
Proof.
  revert best. induction handlers as [| h handlers IH]; intros best Hbest; [done |].
  unfold HandlerInfo_scan in *; simpl. apply IH. unfold HandlerInfo_better.
  destruct (HandlerInfo_candidate index tag h); [| done].
  destruct best as [b |]; [| done].
  by destruct (HandlerInfo_width h <? HandlerInfo_width b)%N.
Qed.

Lemma scan_candidate_is_Some handlers best h :
  h ∈ handlers → HandlerInfo_candidate index tag h = true → is_Some (HandlerInfo_scan index tag best handlers).
Proof.
  revert best. induction handlers as [| h' handlers IH]; intros best Hin Hcand.
  - by apply elem_of_nil in Hin.
  - unfold HandlerInfo_scan in *; simpl. apply elem_of_cons in Hin as [-> | Hin].
    + apply scan_is_Some. unfold HandlerInfo_better. rewrite Hcand.
      destruct best as [b |]; [| done].
      by destruct (HandlerInfo_width h' <? HandlerInfo_width b)%N.
    + by apply IH.
Qed.

(** The result is no wider than the handler the scan started with and than
    any candidate of the table. *)
Lemma scan_smallest handlers best r :
  HandlerInfo_scan index tag best handlers = Some r →
  (∀ b, best = Some b → (HandlerInfo_width r ≤ HandlerInfo_width b)%N) ∧
  (∀ h, h ∈ handlers → HandlerInfo_candidate index tag h = true →
        (HandlerInfo_width r ≤ HandlerInfo_width h)%N).
Proof.
  revert best. induction handlers as [| h handlers IH]; intros best Hscan.
  - unfold HandlerInfo_scan in Hscan; simpl in Hscan. split.
    + intros b Hb. rewrite Hb in Hscan. injection Hscan as ->. lia.
    + intros h Hin. by apply elem_of_nil in Hin.
  - unfold HandlerInfo_scan in *; simpl in Hscan. apply IH in Hscan as [Hbest Htail].
    unfold HandlerInfo_better in Hbest. split.
    + intros b ->.
      destruct (HandlerInfo_candidate index tag h); [| by apply Hbest].
      destruct (N.ltb_spec (HandlerInfo_width h) (HandlerInfo_width b)) as [Hlt | Hge].
      * specialize (Hbest h eq_refl). lia.
      * by apply Hbest.
    + intros h' Hin Hcand. apply elem_of_cons in Hin as [-> | Hin]; [| by apply Htail].
      rewrite Hcand in Hbest. destruct best as [b |].
      * destruct (N.ltb_spec (HandlerInfo_width h) (HandlerInfo_width b)) as [Hlt | Hge].
        -- by apply Hbest.
        -- specialize (Hbest b eq_refl). lia.
      * by apply Hbest.
Qed.

End Scan.

Lemma strictlyInside_narrower (index : N) (inner outer : HandlerInfo) :
  HandlerInfo_strictlyInside inner outer →
  HandlerInfo_contains inner index = true →
  (HandlerInfo_width inner < HandlerInfo_width outer)%N.
Proof.
  unfold HandlerInfo_strictlyInside, HandlerInfo_contains, HandlerInfo_width.
  intros (Hs & He & Hstrict) [Hlo Hhi]%andb_prop.
  apply N.leb_le in Hlo. apply N.ltb_lt in Hhi. lia.
Qed.

Lemma candidate_contains index tag h :
  HandlerInfo_candidate index tag h = true → HandlerInfo_contains h index = true.
Proof. unfold HandlerInfo_candidate. by intros [? _]%andb_prop. Qed.

Lemma strictlyInside_trans (a b c : HandlerInfo) :
  HandlerInfo_strictlyInside a b → HandlerInfo_strictlyInside b c →
  HandlerInfo_strictlyInside a c.
Proof. unfold HandlerInfo_strictlyInside. lia. Qed.

(** The record that every other candidate strictly encloses is the one
    returned. *)
Lemma scan_innermost (index : N) (tag : option Tag) (handlers : list HandlerInfo)
    (r : HandlerInfo) :
  r ∈ handlers → HandlerInfo_candidate index tag r = true →
  (∀ h, h ∈ handlers → HandlerInfo_candidate index tag h = true →
        h = r ∨ HandlerInfo_strictlyInside r h) →
  HandlerInfo_scan index tag None handlers = Some r.
Proof.
  intros Hin Hcand Hinner.
  destruct (scan_candidate_is_Some index tag handlers None r Hin Hcand) as [r0 Hr0].
  destruct (scan_origin _ _ _ _ _ Hr0) as [Hnone | [Hin0 Hcand0]]; [discriminate |].
  destruct (Hinner r0 Hin0 Hcand0) as [-> | Hnest]; [done |].
  apply scan_smallest in Hr0 as [_ Hmin]. specialize (Hmin r Hin Hcand).
  pose proof (strictlyInside_narrower index r r0 Hnest (candidate_contains _ _ _ Hcand)).
  lia.
Qed.

(** The record returned sits in the table before every candidate as narrow
    as it is. *)
Lemma scan_first (index : N) (tag : option Tag) (handlers : list HandlerInfo) :
  ∀ best r,
    HandlerInfo_scan index tag best handlers = Some r →
    best = Some r ∨
    ∃ i, handlers !! i = Some r ∧
         (∀ j h, j < i → handlers !! j = Some h → HandlerInfo_candidate index tag h = true →
                 (HandlerInfo_width r < HandlerInfo_width h)%N) ∧
         (∀ b, best = Some b → (HandlerInfo_width r < HandlerInfo_width b)%N).
Proof.
  induction handlers as [| h handlers IH]; intros best r Hscan; [by left |].
  unfold HandlerInfo_scan in *; simpl in Hscan.
  apply IH in Hscan as [Hbest | (i & Hi & Hbefore & Hbest)];
    unfold HandlerInfo_better in Hbest.
  - destruct (HandlerInfo_candidate index tag h) eqn:Hh; [| by left].
    destruct best as [b |].
    + destruct (N.ltb_spec (HandlerInfo_width h) (HandlerInfo_width b)) as [Hlt | Hge];
        [| by left].
      injection Hbest as <-. right. exists 0. split; [done |]. split.
      * intros j h' Hj. lia.
      * by intros b' [= <-].
    + injection Hbest as <-. right. exists 0. split; [done |]. split.
      * intros j h' Hj. lia.
      * by intros b'.
  - right. exists (S i). split; [done |]. split.
    + intros [| j] h' Hj Hh' Hc'; simpl in Hh'.
      * injection Hh' as <-. rewrite Hc' in Hbest. destruct best as [b |].
        -- destruct (N.ltb_spec (HandlerInfo_width h) (HandlerInfo_width b)) as [Hlt | Hge].
           ++ by apply Hbest.
           ++ specialize (Hbest b eq_refl). lia.
        -- by apply Hbest.
      * apply (Hbefore j h'); [lia | done | done].
    + intros b ->. destruct (HandlerInfo_candidate index tag h); [| by apply Hbest].
      destruct (N.ltb_spec (HandlerInfo_width h) (HandlerInfo_width b)) as [Hlt | Hge].
      * specialize (Hbest h eq_refl). lia.
      * by apply Hbest.
Qed.

(** C4. Lookup is innermost-first, and a miss is a result.  In every table,
    for a thrown tag and an address:
    - a record that accepts the tag and covers the address keeps every
      record whose range strictly encloses its own from being returned: at
      an address in [r1], with [r1] strictly inside [r2], never [r2];
    - the innermost record wins: a record that covers the address and
      accepts the tag is returned when every other such record of the table
      strictly encloses it, however many there are;
    - so for [r1] strictly inside [r2], the other records that cover the
      address and accept the tag enclosing [r2]: at an address in [r1] the
      lookup returns [r1], at an address in [r2] and not in [r1] it returns
      [r2];
    - when some record covers the address and accepts the tag, the lookup
      returns such a record, and one no wider than any other; every such
      record before it in the table is strictly wider;
    - when no record covers the address and accepts the tag, the lookup
      returns no handler. *)
Theorem handlerForIndex_innermost_first (c : Callee) (index : N) (tag : option Tag) :
  let handlers := Callee_m_exceptionHandlers c in
  (∀ r1 r2,
     r1 ∈ handlers → HandlerInfo_strictlyInside r1 r2 →
     HandlerInfo_candidate index tag r1 = true →
     Callee_handlerForIndex c index tag ≠ Some r2) ∧
  (∀ r,
     r ∈ handlers → HandlerInfo_candidate index tag r = true →
     (∀ h, h ∈ handlers → HandlerInfo_candidate index tag h = true →
           h = r ∨ HandlerInfo_strictlyInside r h) →
     Callee_handlerForIndex c index tag = Some r) ∧
  (∀ r1 r2,
     r1 ∈ handlers → r2 ∈ handlers → HandlerInfo_strictlyInside r1 r2 →
     (∀ h, h ∈ handlers → HandlerInfo_candidate index tag h = true →
           h = r1 ∨ h = r2 ∨ HandlerInfo_strictlyInside r2 h) →
     (HandlerInfo_candidate index tag r1 = true →
        Callee_handlerForIndex c index tag = Some r1) ∧
     (HandlerInfo_contains r1 index = false → HandlerInfo_candidate index tag r2 = true →
        Callee_handlerForIndex c index tag = Some r2)) ∧
  (∀ h,
     h ∈ handlers → HandlerInfo_candidate index tag h = true →
     ∃ r, Callee_handlerForIndex c index tag = Some r ∧
          r ∈ handlers ∧ HandlerInfo_candidate index tag r = true ∧
          (∀ h', h' ∈ handlers → HandlerInfo_candidate index tag h' = true →
                 (HandlerInfo_width r ≤ HandlerInfo_width h')%N) ∧
          ∃ i, handlers !! i = Some r ∧
               ∀ j h', j < i → handlers !! j = Some h' →
                       HandlerInfo_candidate index tag h' = true →
                       (HandlerInfo_width r < HandlerInfo_width h')%N) ∧
  ((∀ h, h ∈ handlers → HandlerInfo_candidate index tag h = false) →
     Callee_handlerForIndex c index tag = None).
Proof.
  intros handlers. unfold Callee_handlerForIndex. fold handlers.
  split; [| split; [| split; [| split]]].
  - intros r1 r2 Hin Hnest Hcand Hscan.
    apply scan_smallest in Hscan as [_ Hmin]. specialize (Hmin r1 Hin Hcand).
    pose proof (strictlyInside_narrower index r1 r2 Hnest (candidate_contains _ _ _ Hcand)).
    lia.
  - intros r Hin Hcand Hinner. by apply scan_innermost.
  - intros r1 r2 Hin1 Hin2 Hnest Hothers. split.
    + intros Hcand. apply scan_innermost; [done | done |].
      intros h Hh Hc. destruct (Hothers h Hh Hc) as [-> | [-> | Houter]].
      * by left.
      * by right.
      * right. by eapply strictlyInside_trans.
    + intros Hout Hcand. apply scan_innermost; [done | done |].
      intros h Hh Hc. destruct (Hothers h Hh Hc) as [-> | [-> | Houter]].
      * apply candidate_contains in Hc. congruence.
      * by left.
      * by right.
  - intros h Hin Hcand.
    destruct (scan_candidate_is_Some index tag handlers None h Hin Hcand) as [r Hr].
    exists r. split; [done |].
    destruct (scan_origin _ _ _ _ _ Hr) as [Hnone | [Hin0 Hcand0]]; [discriminate |].
    split; [done |]. split; [done |]. split.
    + by apply scan_smallest in Hr as [_ Hmin].
    + destruct (scan_first _ _ _ _ _ Hr) as [Hnone | (i & Hi & Hbefore & _)];
        [discriminate |].
      by exists i.
  - intros Hnone. by apply scan_no_candidate.
Qed.

End HandlerProperties.

(** * Properties of the callee group constructor *)

Section CalleeGroupProperties.
Context `{ImportBindingGenerator}.

(** The loop, entered at [importIndex] with the stubs before it populated
    ([populated]) and the rest untouched: when the generator serves the next
    [length signatures] imports and fails on the one after them, the loop
    returns with the error message set, the stubs of the served imports
    populated, every later stub untouched, and one call logged per import up
    to and including the failing one. *)
Lemma bindImports_failure (moduleInformation : ModuleInformation) signatures :
  ∀ importIndex remaining (st : Construction) populated vm_i infos_i values signatureIndex vm' infos',
    (∀ j, j < length signatures →
          importFunctionSignatureIndices moduleInformation !! (importIndex + j) = signatures !! j) →
    m_wasmToJSExitStubs (construction_this st) = populated ++ replicate remaining nullptr →
    length populated = importIndex →
    successfulBindings signatures importIndex (construction_vm st)
      (m_callLinkInfos (construction_this st)) = Some (vm_i, infos_i, values) →
    importFunctionSignatureIndices moduleInformation !! (importIndex + length signatures)
      = Some signatureIndex →
    wasmToJS vm_i infos_i signatureIndex (importIndex + length signatures)
      = (vm', infos', Unexpected OutOfMemory) →
    length signatures < remaining →
    JSWebAssemblyCalleeGroup_bindImports moduleInformation remaining importIndex st =
      Returned
        {| construction_vm := vm';
           construction_this :=
             {| m_calleeGroup := m_calleeGroup (construction_this st);
                m_callLinkInfos := infos';
                m_errorMessage := Some "Out of executable memory";
                m_wasmToJSExitStubs :=
                  populated ++ values ++ replicate (remaining - length signatures) nullptr |};
           construction_calls := construction_calls st ++ seq importIndex (S (length signatures)) |}.
Proof.
  induction signatures as [| s signatures IH];
    intros importIndex remaining [vm this calls] populated vm_i infos_i values signatureIndex
      vm' infos' Hsigs Hstubs Hlen Hok Hsig Hfail Hrem;
    destruct remaining as [| remaining]; try (simpl in Hrem; lia);
    cbn [construction_vm construction_this construction_calls] in *.
  - simpl in Hok. injection Hok as <- <- <-.
    rewrite Nat.add_0_r in Hsig, Hfail.
    cbn [JSWebAssemblyCalleeGroup_bindImports construction_this construction_vm construction_calls].
    rewrite Hsig, Hfail, Hstubs. done.
  - pose proof (Hsigs 0 ltac:(simpl; lia)) as Hs0. rewrite Nat.add_0_r in Hs0. simpl in Hs0.
    simpl in Hok.
    destruct (wasmToJS vm (m_callLinkInfos this) s importIndex) as [[vm1 infos1] [v | e]] eqn:Hcall;
      [| discriminate].
    destruct (successfulBindings signatures (S importIndex) vm1 infos1)
      as [[[vm2 infos2] values'] |] eqn:Hrest; [| discriminate].
    injection Hok as <- <- <-.
    cbn [JSWebAssemblyCalleeGroup_bindImports construction_this construction_vm construction_calls].
    rewrite Hs0, Hcall.
    rewrite (IH (S importIndex) remaining _ (populated ++ [v]) vm2 infos2 values'
               signatureIndex vm' infos');
      cbn [construction_vm construction_this construction_calls m_calleeGroup m_callLinkInfos
           m_wasmToJSExitStubs].
    + rewrite <- !app_assoc. done.
    + intros j Hj. pose proof (Hsigs (S j) ltac:(simpl; lia)) as Hj'.
      simpl in Hj'. rewrite <- Hj'. f_equal. lia.
    + rewrite Hstubs, insert_app_r_alt by lia.
      replace (importIndex - length populated) with 0 by lia.
      by rewrite <- app_assoc.
    + rewrite length_app. simpl. lia.
    + exact Hrest.
    + rewrite <- Hsig. f_equal. simpl. lia.
    + rewrite <- Hfail. f_equal. simpl. lia.
    + simpl in Hrem. lia.
Qed.

Lemma successfulBindings_length signatures :
  ∀ importIndex vm infos vm_i infos_i values,
    successfulBindings signatures importIndex vm infos = Some (vm_i, infos_i, values) →
    length values = length signatures.
Proof.
  induction signatures as [| s signatures IH]; intros importIndex vm infos vm_i infos_i values Hok;
    simpl in Hok.
  - by injection Hok as <- <- <-.
  - destruct (wasmToJS vm infos s importIndex) as [[vm1 infos1] [v | e]]; [| discriminate].
    destruct (successfulBindings signatures (S importIndex) vm1 infos1)
      as [[[vm2 infos2] values'] |] eqn:Hrest; [| discriminate].
    injection Hok as <- <- <-. simpl. f_equal. by eapply IH.
Qed.

(** C7. When the generator serves the imports before [i] and fails with
    [OutOfMemory] on import [i], the constructor returns a group whose error
    message is the text for exhausted executable memory; the exit stubs
    before [i] are the served bindings and those from [i] on are as they
    were default-constructed; and [wasmToJS] was called once for each of the
    imports [0 .. i] and never again: nothing is retried, nothing after [i]
    is attempted. *)
Theorem binding_failure_reported (vm : VM) (calleeGroup : Wasm_CalleeGroup)
    (moduleInformation : ModuleInformation) (i : nat) (signatureIndex : SignatureIndex)
    (vm_i : VM) (infos_i : CallLinkInfoBag) (values : list MacroAssemblerCodeRef)
    (vm' : VM) (infos' : CallLinkInfoBag) :
  i < CalleeGroup_functionImportCount calleeGroup →
  successfulBindings (take i (importFunctionSignatureIndices moduleInformation)) 0 vm
    CallLinkInfoBag_empty = Some (vm_i, infos_i, values) →
  importFunctionSignatureIndices moduleInformation !! i = Some signatureIndex →
  wasmToJS vm_i infos_i signatureIndex i = (vm', infos', Unexpected OutOfMemory) →
  let stubs := values ++ replicate (CalleeGroup_functionImportCount calleeGroup - i) nullptr in
  JSWebAssemblyCalleeGroup_new vm calleeGroup moduleInformation =
    Returned
      {| construction_vm := vm';
         construction_this :=
           {| m_calleeGroup := calleeGroup;
              m_callLinkInfos := infos';
              m_errorMessage := Some "Out of executable memory";
              m_wasmToJSExitStubs := stubs |};
         construction_calls := seq 0 (S i) |} ∧
  length values = i ∧
  (∀ j, i ≤ j < CalleeGroup_functionImportCount calleeGroup → stubs !! j = Some nullptr).
Proof.
  intros Hi Hok Hsig Hfail stubs.
  assert (Hlen : length (take i (importFunctionSignatureIndices moduleInformation)) = i).
  { apply length_take_le. apply lookup_lt_Some in Hsig. lia. }
  assert (Hvalues : length values = i).
  { apply successfulBindings_length in Hok. by rewrite Hok. }
  split; [| split; [done |]].
  - unfold JSWebAssemblyCalleeGroup_new.
    rewrite (bindImports_failure moduleInformation
               (take i (importFunctionSignatureIndices moduleInformation))
               0 _ _ [] vm_i infos_i values signatureIndex vm' infos');
      cbn [construction_vm construction_this construction_calls m_calleeGroup m_callLinkInfos
           m_wasmToJSExitStubs]; rewrite ?Hlen; try done.
    intros j Hj. simpl. by rewrite lookup_take_lt.
  - intros j [Hlo Hhi]. subst stubs.
    rewrite lookup_app_r by lia. apply lookup_replicate_2. lia.
Qed.

End CalleeGroupProperties.

(** * The theorems at concrete callees *)

Section Instances.
#[local] Existing Instance exampleExternals.
#[local] Existing Instance exampleGenerator.

Lemma slots_never_cleared_witness :
  let llint :=
    LLIntCallee_setOSREntryCallee 5 Signaling
      (LLIntCallee_setReplacement 4 BoundsChecking exampleLLIntCallee) in
  let bbq := BBQCallee_setOSREntryCallee 5 Signaling (BBQCallee_setReplacement 6 exampleBBQCallee) in
  let llintHistory :=
    [LLInt_setEntrypoint 0x3000%N; LLInt_setReplacement 8 Signaling;
     LLInt_setReplacement 9 BoundsChecking; LLInt_setOSREntryCallee 10 BoundsChecking] in
  let bbqHistory :=
    [BBQ_setDidStartCompilingOSREntryCallee true; BBQ_setReplacement 11;
     BBQ_setOSREntryCallee 12 BoundsChecking] in
  is_Some (LLIntCallee_replacement BoundsChecking (LLIntCallee_run llintHistory llint)) ∧
  is_Some (LLIntCallee_osrEntryCallee Signaling (LLIntCallee_run llintHistory llint)) ∧
  is_Some (BBQCallee_replacement (BBQCallee_run bbqHistory bbq)) ∧
  is_Some (BBQCallee_osrEntryCallee (BBQCallee_run bbqHistory bbq)).
Proof.
  intros llint bbq llintHistory bbqHistory.
  destruct (@slots_never_cleared exampleExternals) as (Hr & Ho & Hbr & Hbo).
  split; [| split; [| split]].
  - apply Hr. by exists 4%positive.
  - apply Ho. by exists 5%positive.
  - apply Hbr. by exists 6%positive.
  - apply Hbo. by exists 5%positive.
Defined.

(** C2, as stated, fails: after two publications into the same slot the
    slot holds the second callee, not the first. *)
Lemma first_publish_does_not_win :
  BBQCallee_replacement
    (BBQCallee_setReplacement 2 (BBQCallee_setReplacement 1 exampleBBQCallee)) = Some 2%positive ∧
  BBQCallee_replacement
    (BBQCallee_setReplacement 2 (BBQCallee_setReplacement 1 exampleBBQCallee)) ≠ Some 1%positive ∧
  LLIntCallee_replacement Signaling
    (LLIntCallee_setReplacement 2 Signaling
       (LLIntCallee_setReplacement 1 Signaling exampleLLIntCallee)) = Some 2%positive ∧
  LLIntCallee_replacement Signaling
    (LLIntCallee_setReplacement 2 Signaling
       (LLIntCallee_setReplacement 1 Signaling exampleLLIntCallee)) ≠ Some 1%positive.
Proof. repeat split; discriminate. Qed.

Lemma last_publish_wins_witness :
  BBQCallee_replacement
    (BBQCallee_setReplacement 2 (BBQCallee_setReplacement 1 exampleBBQCallee)) ≠ Some 1%positive ∧
  LLIntCallee_replacement Signaling
    (LLIntCallee_setReplacement 2 Signaling
       (LLIntCallee_setReplacement 1 Signaling exampleLLIntCallee)) ≠ Some 1%positive.
Proof.
  destruct (@last_publish_wins exampleExternals) as [Hbbq Hllint]. split.
  - apply (Hbbq exampleBBQCallee 1%positive 2%positive). discriminate.
  - apply (Hllint exampleLLIntCallee 1%positive 2%positive Signaling). discriminate.
Defined.

Lemma BBQCallee_osrEntryCallee_shared_across_modes_witness :
  let c :=
    LLIntCallee_setOSREntryCallee 2 Signaling
      (LLIntCallee_setOSREntryCallee 1 BoundsChecking exampleLLIntCallee) in
  LLIntCallee_osrEntryCallee BoundsChecking c = Some 1%positive ∧
  LLIntCallee_osrEntryCallee Signaling c = Some 2%positive.
Proof.
  apply (proj2 (proj2 (@BBQCallee_osrEntryCallee_shared_across_modes exampleExternals))).
  discriminate.
Defined.

Lemma new_callee_slots_empty_witness :
  BBQCallee_create exampleEntrypoint 0%N (None, None) 0 [] tt [] [] = Returned exampleBBQCallee ∧
  BBQCallee_replacement exampleBBQCallee = None ∧
  BBQCallee_osrEntryCallee exampleBBQCallee = None ∧
  BBQCallee_didStartCompilingOSREntryCallee exampleBBQCallee = false.
Proof.
  split; [reflexivity |].
  apply (proj2 (@new_callee_slots_empty exampleExternals)
           exampleEntrypoint 0%N (None, None) 0 [] tt [] []).
  reflexivity.
Defined.

Lemma mutators_keep_tier_identity_handlers_range_witness :
  setOSREntryCallee 3 Signaling (IsBBQCallee exampleBBQCallee)
    = Returned (IsBBQCallee (BBQCallee_setOSREntryCallee 3 Signaling exampleBBQCallee)) ∧
  Callee_unchanged (IsBBQCallee exampleBBQCallee)
    (IsBBQCallee (BBQCallee_setOSREntryCallee 3 Signaling exampleBBQCallee)).
Proof.
  split; [reflexivity |].
  apply (proj2 (proj2 (@mutators_keep_tier_identity_handlers_range exampleExternals))
           3%positive Signaling).
  reflexivity.
Defined.

Lemma linkExceptionHandlers_checked_and_pairwise_witness :
  OptimizingJITCallee_new OMGMode exampleEntrypoint 0%N (None, None) [] tt
    exampleUnlinkedHandlers [0x100%N] = Crashed ∧
  ∃ c : OptimizingJITCallee,
    OptimizingJITCallee_new OMGMode exampleEntrypoint 0%N (None, None) [] tt
      exampleUnlinkedHandlers [0x100%N; 0x200%N] = Returned c ∧
    Callee_m_exceptionHandlers (OptimizingJITCallee_callee c)
      = [exampleOuterHandler; exampleInnerHandler].
Proof.
  split.
  - apply (proj1 (@linkExceptionHandlers_checked_and_pairwise exampleExternals
                    OMGMode exampleEntrypoint 0%N (None, None) [] tt
                    exampleUnlinkedHandlers [0x100%N])).
    simpl. lia.
  - destruct (proj2 (@linkExceptionHandlers_checked_and_pairwise exampleExternals
                       OMGMode exampleEntrypoint 0%N (None, None) [] tt
                       exampleUnlinkedHandlers [0x100%N; 0x200%N]) eq_refl)
      as (c & Hc & Hlen & Hrecords).
    exists c. split; [exact Hc |].
    injection Hc as <-. reflexivity.
Defined.

Lemma handlerForIndex_innermost_first_witness :
  Callee_handlerForIndex exampleHandlerCallee 0x15 (Some 7%N) = Some exampleInnerHandler ∧
  Callee_handlerForIndex exampleHandlerCallee 0x15 (Some 7%N) ≠ Some exampleOuterHandler ∧
  Callee_handlerForIndex exampleHandlerCallee 0x11 (Some 7%N) = Some exampleOuterHandler ∧
  Callee_handlerForIndex exampleHandlerCallee 0x30 (Some 7%N) = None ∧
  Callee_handlerForIndex exampleNestedCallee 0x15 (Some 7%N) = Some exampleInnermostHandler ∧
  (∃ r, Callee_handlerForIndex exampleNestedCallee 0x13 (Some 7%N) = Some r ∧
        (HandlerInfo_width r ≤ HandlerInfo_width exampleInnerHandler)%N).
Proof.
  assert (Hinner : exampleInnerHandler ∈ Callee_m_exceptionHandlers exampleHandlerCallee)
    by (right; left).
  assert (Houter : exampleOuterHandler ∈ Callee_m_exceptionHandlers exampleHandlerCallee)
    by left.
  assert (Hnest : HandlerInfo_strictlyInside exampleInnerHandler exampleOuterHandler)
    by (unfold HandlerInfo_strictlyInside; simpl; lia).
  assert (Honly : ∀ h, h ∈ Callee_m_exceptionHandlers exampleHandlerCallee →
                       h = exampleInnerHandler ∨ h = exampleOuterHandler).
  { intros h Hh. simpl in Hh. apply elem_of_cons in Hh as [-> | Hh]; [by right |].
    apply elem_of_cons in Hh as [-> | Hh]; [by left |]. by apply elem_of_nil in Hh. }
  assert (Hnested : ∀ h, h ∈ Callee_m_exceptionHandlers exampleNestedCallee →
                         h = exampleInnermostHandler ∨
                         HandlerInfo_strictlyInside exampleInnermostHandler h).
  { intros h Hh. simpl in Hh. apply elem_of_cons in Hh as [-> | Hh];
      [right; unfold HandlerInfo_strictlyInside; simpl; lia |].
    apply elem_of_cons in Hh as [-> | Hh];
      [right; unfold HandlerInfo_strictlyInside; simpl; lia |].
    apply elem_of_cons in Hh as [-> | Hh]; [by left |]. by apply elem_of_nil in Hh. }
  split; [| split; [| split; [| split; [| split]]]].
  - apply (proj1 (proj2 (proj2 (@handlerForIndex_innermost_first exampleExternals
                                  exampleHandlerCallee 0x15 (Some 7%N))))
             exampleInnerHandler exampleOuterHandler Hinner Houter Hnest);
      [intros h Hh _; destruct (Honly h Hh) as [-> | ->]; auto | reflexivity].
  - apply (proj1 (@handlerForIndex_innermost_first exampleExternals
                    exampleHandlerCallee 0x15 (Some 7%N))
             exampleInnerHandler exampleOuterHandler Hinner Hnest).
    reflexivity.
  - apply (proj1 (proj2 (proj2 (@handlerForIndex_innermost_first exampleExternals
                                  exampleHandlerCallee 0x11 (Some 7%N))))
             exampleInnerHandler exampleOuterHandler Hinner Houter Hnest);
      [intros h Hh _; destruct (Honly h Hh) as [-> | ->]; auto
      | reflexivity | reflexivity].
  - apply (proj2 (proj2 (proj2 (proj2 (@handlerForIndex_innermost_first exampleExternals
                                         exampleHandlerCallee 0x30 (Some 7%N)))))).
    intros h Hh. by destruct (Honly h Hh) as [-> | ->].
  - apply (proj1 (proj2 (@handlerForIndex_innermost_first exampleExternals
                           exampleNestedCallee 0x15 (Some 7%N)))
             exampleInnermostHandler).
    + right; right; left.
    + reflexivity.
    + intros h Hh _. by apply Hnested.
  - destruct (proj1 (proj2 (proj2 (proj2 (@handlerForIndex_innermost_first exampleExternals
                                            exampleNestedCallee 0x13 (Some 7%N)))))
                exampleInnerHandler) as (r & Hr & _ & _ & Hmin & _).
    + right; left.
    + reflexivity.
    + exists r. split; [exact Hr |]. apply Hmin; [right; left | reflexivity].
Defined.

Lemma binding_failure_reported_witness :
  JSWebAssemblyCalleeGroup_new (1 : VM) exampleCalleeGroup exampleModuleInformation =
  Returned
    (mkConstruction (0 : VM)
       (mkJSWebAssemblyCalleeGroup exampleCalleeGroup ([0] : CallLinkInfoBag)
          (Some "Out of executable memory") [0x2000%N; nullptr; nullptr])
       [0; 1]).
Proof.
  apply (@binding_failure_reported exampleGenerator 1 exampleCalleeGroup
           exampleModuleInformation 1 11 0 [0] [0x2000%N] 0 [0]).
  - simpl. lia.
  - reflexivity.
  - reflexivity.
  - reflexivity.
Defined.

End Instances.

(** * Further properties of the callees *)

Section HistoryProperties.
Context `{WasmExternals}.

(** ** What a getter returns after a history *)

Lemma foldl_lastWrite {S R A V : Type} (step : S → R → S) (read : S → V)
    (writes : R → option A) (inj : A → V) :
  (∀ s r, read (step s r) = match writes r with Some a => inj a | None => read s end) →
  ∀ rs s,
    read (foldl step s rs) = match lastWrite writes rs with Some a => inj a | None => read s end.
Proof.
  intros Hstep rs. induction rs as [| r rs IH] using rev_ind; intros s; [done |].
  rewrite foldl_snoc, Hstep. unfold lastWrite in *. rewrite omap_app. simpl.
  destruct (writes r) as [a |]; simpl.
  - by rewrite last_snoc.
  - rewrite app_nil_r. apply IH.
Qed.

(** X1. After any history of an interpreter-tier callee, [replacement(mode)]
    and [osrEntryCallee(mode)] return what the last [setReplacement] and the
    last [setOSREntryCallee] for that memory mode stored, and what they
    returned before the history when it has no such request.  Requests for
    the other memory mode and for the other members do not show. *)
Theorem LLIntCallee_history_reads (rs : list LLIntRequest) (c : LLIntCallee) (mode : MemoryMode) :
  LLIntCallee_replacement mode (LLIntCallee_run rs c) =
    match lastWrite (LLIntRequest_writesReplacement mode) rs with
    | Some e => Some e
    | None => LLIntCallee_replacement mode c
    end ∧
  LLIntCallee_osrEntryCallee mode (LLIntCallee_run rs c) =
    match lastWrite (LLIntRequest_writesOSREntryCallee mode) rs with
    | Some e => Some e
    | None => LLIntCallee_osrEntryCallee mode c
    end.
Proof.
  unfold LLIntCallee_run. split.
  - apply (foldl_lastWrite LLIntCallee_apply (LLIntCallee_replacement mode)
             (LLIntRequest_writesReplacement mode) Some).
    intros s [p | e m | e m]; simpl; try done.
    rewrite LLIntCallee_replacement_setReplacement. by case_decide.
  - apply (foldl_lastWrite LLIntCallee_apply (LLIntCallee_osrEntryCallee mode)
             (LLIntRequest_writesOSREntryCallee mode) Some).
    intros s [p | e m | e m]; simpl; try done.
    rewrite LLIntCallee_osrEntryCallee_setOSREntryCallee. by case_decide.
Qed.

(** X2. After any history of a baseline callee, [replacement()],
    [osrEntryCallee()] and [didStartCompilingOSREntryCallee()] return what
    the last [setReplacement], the last [setOSREntryCallee] (under any
    memory mode) and the last [setDidStartCompilingOSREntryCallee] stored, and
    what they returned before the history when there is no such request. *)
Theorem BBQCallee_history_reads (rs : list BBQRequest) (c : BBQCallee) :
  BBQCallee_replacement (BBQCallee_run rs c) =
    match lastWrite BBQRequest_writesReplacement rs with
    | Some e => Some e
    | None => BBQCallee_replacement c
    end ∧
  BBQCallee_osrEntryCallee (BBQCallee_run rs c) =
    match lastWrite BBQRequest_writesOSREntryCallee rs with
    | Some e => Some e
    | None => BBQCallee_osrEntryCallee c
    end ∧
  BBQCallee_didStartCompilingOSREntryCallee (BBQCallee_run rs c) =
    match lastWrite BBQRequest_writesDidStartCompilingOSREntryCallee rs with
    | Some value => value
    | None => BBQCallee_didStartCompilingOSREntryCallee c
    end ∧
  BBQCallee_tierUpCount (BBQCallee_run rs c) = BBQCallee_tierUpCount c.
Proof.
  unfold BBQCallee_run. split; [| split; [| split]].
  - apply (foldl_lastWrite BBQCallee_apply BBQCallee_replacement
             BBQRequest_writesReplacement Some).
    by intros s [e m | value | e].
  - apply (foldl_lastWrite BBQCallee_apply BBQCallee_osrEntryCallee
             BBQRequest_writesOSREntryCallee Some).
    by intros s [e m | value | e].
  - apply (foldl_lastWrite BBQCallee_apply BBQCallee_didStartCompilingOSREntryCallee
             BBQRequest_writesDidStartCompilingOSREntryCallee (λ value, value)).
    by intros s [e m | value | e].
  - apply (foldl_preserves _ (λ c', BBQCallee_tierUpCount c' = BBQCallee_tierUpCount c));
      [| done].
    by intros s [e m | value | e].
Qed.

(** ** Order of publications *)

Lemma vinsert_commute {A n} (i j : fin n) (x y : A) (v : vec A n) :
  i ≠ j → vinsert i x (vinsert j y v) = vinsert j y (vinsert i x v).
Proof.
  intros Hij. apply vec_eq; intros k.
  destruct (decide (i = k)) as [-> | Hik]; destruct (decide (j = k)) as [-> | Hjk];
    try done.
  - by rewrite vlookup_insert, vlookup_insert_ne, vlookup_insert.
  - by rewrite vlookup_insert, vlookup_insert_ne, vlookup_insert.
  - by rewrite !vlookup_insert_ne.
Qed.

Lemma MemoryMode_index_inj m m' : MemoryMode_index m = MemoryMode_index m' → m = m'.
Proof. by destruct m, m'. Qed.

(** X3. Publications into different slots can be made in either order with
    the same resulting callee: on an interpreter-tier callee, two
    [setReplacement] or two [setOSREntryCallee] for different memory modes,
    and a [setReplacement] and a [setOSREntryCallee] for any modes; on a
    baseline callee, a [setReplacement] and a [setOSREntryCallee]. *)
Theorem publications_commute :
  (∀ (c : LLIntCallee) (e e' : Ref JITCallee) (m m' : MemoryMode),
     m ≠ m' →
     LLIntCallee_setReplacement e m (LLIntCallee_setReplacement e' m' c) =
       LLIntCallee_setReplacement e' m' (LLIntCallee_setReplacement e m c)) ∧
  (∀ (c : LLIntCallee) (e e' : Ref OMGForOSREntryCallee) (m m' : MemoryMode),
     m ≠ m' →
     LLIntCallee_setOSREntryCallee e m (LLIntCallee_setOSREntryCallee e' m' c) =
       LLIntCallee_setOSREntryCallee e' m' (LLIntCallee_setOSREntryCallee e m c)) ∧
  (∀ (c : LLIntCallee) (r : Ref JITCallee) (e : Ref OMGForOSREntryCallee) (m m' : MemoryMode),
     LLIntCallee_setReplacement r m (LLIntCallee_setOSREntryCallee e m' c) =
       LLIntCallee_setOSREntryCallee e m' (LLIntCallee_setReplacement r m c)) ∧
  (∀ (c : BBQCallee) (r : Ref OMGCallee) (e : Ref OMGForOSREntryCallee) (m : MemoryMode),
     BBQCallee_setReplacement r (BBQCallee_setOSREntryCallee e m c) =
       BBQCallee_setOSREntryCallee e m (BBQCallee_setReplacement r c)).
Proof.
  split; [| split; [| split; [done | done]]].
  - intros c e e' m m' Hm. unfold LLIntCallee_setReplacement; simpl. f_equal.
    apply vinsert_commute. intros Hi. by apply Hm, MemoryMode_index_inj.
  - intros c e e' m m' Hm. unfold LLIntCallee_setOSREntryCallee; simpl. f_equal.
    apply vinsert_commute. intros Hi. by apply Hm, MemoryMode_index_inj.
Qed.

(** ** The [create] functions *)

(** X4. [OMGCallee::create], [OMGForOSREntryCallee::create] and
    [BBQCallee::create] crash on the release assertion exactly when the list
    of unlinked handlers and the list of handler locations differ in length,
    and return a callee exactly when the lengths agree.  The OSR-entry callee
    returned has the scratch buffer size and the loop index it was created
    with, the baseline callee its tier-up counter. *)
Theorem create_returns_iff_lengths_agree entrypoint index name unlinkedCalls stackmaps
    (unlinked : list UnlinkedHandlerInfo) (locations : list CodeLocationLabel) :
  (OMGCallee_create entrypoint index name unlinkedCalls stackmaps unlinked locations = Crashed
     ↔ length unlinked ≠ length locations) ∧
  ((∃ c, OMGCallee_create entrypoint index name unlinkedCalls stackmaps unlinked locations
           = Returned c)
     ↔ length unlinked = length locations) ∧
  (∀ size loopIndex,
     (OMGForOSREntryCallee_create entrypoint index name size loopIndex unlinkedCalls stackmaps
        unlinked locations = Crashed
        ↔ length unlinked ≠ length locations) ∧
     ((∃ c, OMGForOSREntryCallee_create entrypoint index name size loopIndex unlinkedCalls
              stackmaps unlinked locations = Returned c ∧
            OMGForOSREntryCallee_osrEntryScratchBufferSize c = size ∧
            OMGForOSREntryCallee_loopIndex c = loopIndex)
        ↔ length unlinked = length locations)) ∧
  (∀ tierUpCount,
     (BBQCallee_create entrypoint index name tierUpCount unlinkedCalls stackmaps
        unlinked locations = Crashed
        ↔ length unlinked ≠ length locations) ∧
     ((∃ c, BBQCallee_create entrypoint index name tierUpCount unlinkedCalls stackmaps
              unlinked locations = Returned c ∧
            BBQCallee_tierUpCount c = tierUpCount)
        ↔ length unlinked = length locations)).
Proof.
  unfold OMGCallee_create, OMGForOSREntryCallee_create, BBQCallee_create.
  destruct (decide (length unlinked = length locations)) as [Heq | Hne].
  - rewrite !OptimizingJITCallee_new_match by done.
    cbn [mbind Outcome_bind mret Outcome_ret].
    repeat split; intros; try done; eauto.
  - rewrite !OptimizingJITCallee_new_mismatch by done.
    cbn [mbind Outcome_bind mret Outcome_ret].
    repeat split; intros; try done;
      match goal with
      | Hc : ∃ _, _ = _ |- _ => destruct Hc as [? Hc]; discriminate Hc
      | Hc : ∃ _, _ ∧ _ |- _ => destruct Hc as (? & Hc & _); discriminate Hc
      end.
Qed.

(** ** The virtual [setOSREntryCallee] *)

(** X5. When the virtual [setOSREntryCallee] returns, the object it was
    called on is of a class with an OSR-entry slot, the getter of that class
    now returns the installed callee for the mode of the call, and the
    class and [llintFunctionCodeBlock()] are as before. *)
Theorem setOSREntryCallee_reads_back (e : Ref OMGForOSREntryCallee) (mode : MemoryMode)
    (o o' : CalleeObject) :
  setOSREntryCallee e mode o = Returned o' →
  CalleeObject_osrEntryCallee mode o' = Some (Some e) ∧
  compilationModeOfClass o' = compilationModeOfClass o ∧
  llintFunctionCodeBlock o' = llintFunctionCodeBlock o.
Proof.
  destruct o as [c | c | c | c | c]; simpl; try discriminate; intros [= <-]; simpl.
  - done.
  - rewrite LLIntCallee_osrEntryCallee_setOSREntryCallee, decide_True by done. done.
Qed.

End HistoryProperties.

(** * Further properties of the callee group constructor *)

Section CalleeGroupMore.
Context `{ImportBindingGenerator}.

(** The loop when the generator serves every remaining import. *)
Lemma bindImports_success (moduleInformation : ModuleInformation) signatures :
  ∀ importIndex (st : Construction) populated vm_n infos_n values,
    (∀ j, j < length signatures →
          importFunctionSignatureIndices moduleInformation !! (importIndex + j) = signatures !! j) →
    m_wasmToJSExitStubs (construction_this st)
      = populated ++ replicate (length signatures) nullptr →
    length populated = importIndex →
    successfulBindings signatures importIndex (construction_vm st)
      (m_callLinkInfos (construction_this st)) = Some (vm_n, infos_n, values) →
    JSWebAssemblyCalleeGroup_bindImports moduleInformation (length signatures) importIndex st =
      Returned
        {| construction_vm := vm_n;
           construction_this :=
             {| m_calleeGroup := m_calleeGroup (construction_this st);
                m_callLinkInfos := infos_n;
                m_errorMessage := m_errorMessage (construction_this st);
                m_wasmToJSExitStubs := populated ++ values |};
           construction_calls := construction_calls st ++ seq importIndex (length signatures) |}.
Proof.
  induction signatures as [| s signatures IH];
    intros importIndex [vm this calls] populated vm_n infos_n values Hsigs Hstubs Hlen Hok;
    cbn [construction_vm construction_this construction_calls] in *.
  - simpl in Hok. injection Hok as <- <- <-. simpl in *. rewrite !app_nil_r in *.
    rewrite <- Hstubs. by destruct this.
  - pose proof (Hsigs 0 ltac:(simpl; lia)) as Hs0. rewrite Nat.add_0_r in Hs0. simpl in Hs0.
    simpl in Hok.
    destruct (wasmToJS vm (m_callLinkInfos this) s importIndex) as [[vm1 infos1] [v | e]] eqn:Hcall;
      [| discriminate].
    destruct (successfulBindings signatures (S importIndex) vm1 infos1)
      as [[[vm2 infos2] values'] |] eqn:Hrest; [| discriminate].
    injection Hok as <- <- <-.
    cbn [length JSWebAssemblyCalleeGroup_bindImports construction_this construction_vm
         construction_calls].
    rewrite Hs0, Hcall.
    rewrite (IH (S importIndex) _ (populated ++ [v]) vm2 infos2 values');
      cbn [construction_vm construction_this construction_calls m_calleeGroup m_callLinkInfos
           m_wasmToJSExitStubs m_errorMessage].
    + rewrite <- !app_assoc. done.
    + intros j Hj. pose proof (Hsigs (S j) ltac:(simpl; lia)) as Hj'.
      simpl in Hj'. rewrite <- Hj'. f_equal. lia.
    + rewrite Hstubs, insert_app_r_alt by lia.
      replace (importIndex - length populated) with 0 by lia.
      by rewrite <- app_assoc.
    + rewrite length_app. simpl. lia.
    + exact Hrest.
Qed.

(** X6. When the module has a signature for every import and the generator
    serves them all, the constructor returns a group without an error
    message whose exit stubs are the served bindings, one per import, in
    import order, after exactly one call of [wasmToJS] per import. *)
Theorem all_imports_bound (vm : VM) (calleeGroup : Wasm_CalleeGroup)
    (moduleInformation : ModuleInformation)
    (vm' : VM) (infos' : CallLinkInfoBag) (values : list MacroAssemblerCodeRef) :
  CalleeGroup_functionImportCount calleeGroup
    ≤ length (importFunctionSignatureIndices moduleInformation) →
  successfulBindings
    (take (CalleeGroup_functionImportCount calleeGroup)
       (importFunctionSignatureIndices moduleInformation))
    0 vm CallLinkInfoBag_empty = Some (vm', infos', values) →
  JSWebAssemblyCalleeGroup_new vm calleeGroup moduleInformation =
    Returned
      {| construction_vm := vm';
         construction_this :=
           {| m_calleeGroup := calleeGroup;
              m_callLinkInfos := infos';
              m_errorMessage := None;
              m_wasmToJSExitStubs := values |};
         construction_calls := seq 0 (CalleeGroup_functionImportCount calleeGroup) |} ∧
  length values = CalleeGroup_functionImportCount calleeGroup.
Proof.
  intros Hcount Hok.
  set (count := CalleeGroup_functionImportCount calleeGroup) in *.
  assert (Hlen : length (take count (importFunctionSignatureIndices moduleInformation)) = count)
    by (apply length_take_le; lia).
  split.
  - unfold JSWebAssemblyCalleeGroup_new. fold count.
    pose proof (bindImports_success moduleInformation
                  (take count (importFunctionSignatureIndices moduleInformation))
                  0
                  {| construction_vm := vm;
                     construction_this :=
                       {| m_calleeGroup := calleeGroup;
                          m_callLinkInfos := CallLinkInfoBag_empty;
                          m_errorMessage := None;
                          m_wasmToJSExitStubs := replicate count nullptr |};
                     construction_calls := [] |}
                  [] vm' infos' values) as Hloop.
    rewrite Hlen in Hloop. apply Hloop; try done.
    intros j Hj. simpl. by rewrite lookup_take_lt.
  - apply successfulBindings_length in Hok. by rewrite Hok.
Qed.

(** What every run of the loop that returns has done. *)
Lemma bindImports_shape (moduleInformation : ModuleInformation) :
  ∀ remaining importIndex (st st' : Construction),
    JSWebAssemblyCalleeGroup_bindImports moduleInformation remaining importIndex st
      = Returned st' →
    m_calleeGroup (construction_this st') = m_calleeGroup (construction_this st) ∧
    length (m_wasmToJSExitStubs (construction_this st'))
      = length (m_wasmToJSExitStubs (construction_this st)) ∧
    ∃ k, k ≤ remaining ∧
      construction_calls st' = construction_calls st ++ seq importIndex k ∧
      ((m_errorMessage (construction_this st') = m_errorMessage (construction_this st) ∧
        k = remaining) ∨
       (m_errorMessage (construction_this st') = Some "Out of executable memory" ∧
        0 < k ∧
        ∀ j, importIndex + k - 1 ≤ j →
             m_wasmToJSExitStubs (construction_this st') !! j
               = m_wasmToJSExitStubs (construction_this st) !! j)).
Proof.
  induction remaining as [| remaining IH]; intros importIndex [vm this calls] st' Hrun;
    cbn [JSWebAssemblyCalleeGroup_bindImports construction_this construction_vm
         construction_calls] in *.
  - injection Hrun as <-. split; [done |]. split; [done |].
    exists 0. split; [lia |]. split; [by rewrite app_nil_r |]. by left.
  - destruct (importFunctionSignatureIndices moduleInformation !! importIndex)
      as [signatureIndex |]; [| discriminate].
    destruct (wasmToJS vm (m_callLinkInfos this) signatureIndex importIndex)
      as [[vm1 infos1] [v | []]].
    + apply IH in Hrun as (Hgroup & Hlen & k & Hk & Hcalls & Hcases);
        cbn [construction_this construction_calls m_calleeGroup m_wasmToJSExitStubs
             m_errorMessage] in *.
      split; [done |]. split; [by rewrite Hlen, length_insert |].
      exists (S k). split; [lia |]. split; [by rewrite Hcalls, <- app_assoc |].
      destruct Hcases as [[Hmsg ->] | (Hmsg & Hpos & Hstubs)]; [by left |].
      right. split; [done |]. split; [lia |].
      intros j Hj. rewrite Hstubs by lia. apply list_lookup_insert_ne. lia.
    + injection Hrun as <-.
      cbn [construction_this construction_calls m_calleeGroup m_wasmToJSExitStubs
           m_errorMessage].
      split; [done |]. split; [done |].
      exists 1. split; [lia |]. split; [done |]. right.
      split; [done |]. split; [lia |]. done.
Qed.

(** X7. Whatever the generator does, a constructor that returns has asked
    for the bindings of the imports [0 .. k - 1], each once and in order,
    for some [k] up to the import count, and has as many exit stubs as
    imports.  Either there is no error message and every import was asked
    for, or the message is the one for exhausted executable memory, at
    least one import was asked for, and the stubs from the last one asked
    for on are default-constructed. *)
Theorem constructor_result_shape (vm : VM) (calleeGroup : Wasm_CalleeGroup)
    (moduleInformation : ModuleInformation) (st : Construction) :
  JSWebAssemblyCalleeGroup_new vm calleeGroup moduleInformation = Returned st →
  let count := CalleeGroup_functionImportCount calleeGroup in
  let this := construction_this st in
  m_calleeGroup this = calleeGroup ∧
  length (m_wasmToJSExitStubs this) = count ∧
  ∃ k, k ≤ count ∧ construction_calls st = seq 0 k ∧
    ((m_errorMessage this = None ∧ k = count) ∨
     (m_errorMessage this = Some "Out of executable memory" ∧ 0 < k ∧
      ∀ j, k - 1 ≤ j < count → m_wasmToJSExitStubs this !! j = Some nullptr)).
Proof.
  intros Hrun. cbv zeta. unfold JSWebAssemblyCalleeGroup_new in Hrun.
  apply bindImports_shape in Hrun as (Hgroup & Hlen & k & Hk & Hcalls & Hcases);
    cbn [construction_this construction_calls m_calleeGroup m_wasmToJSExitStubs
         m_errorMessage] in *.
  split; [done |]. split; [by rewrite Hlen, length_replicate |].
  exists k. split; [done |]. split; [done |].
  destruct Hcases as [[Hmsg ->] | (Hmsg & Hpos & Hstubs)]; [by left |].
  right. split; [done |]. split; [done |].
  intros j [Hlo Hhi]. rewrite Hstubs by lia. apply lookup_replicate_2. done.
Qed.

(** The loop does not crash while the module has signatures for the
    remaining imports. *)
Lemma bindImports_returns (moduleInformation : ModuleInformation) :
  ∀ remaining importIndex (st : Construction),
    importIndex + remaining ≤ length (importFunctionSignatureIndices moduleInformation) →
    ∃ st', JSWebAssemblyCalleeGroup_bindImports moduleInformation remaining importIndex st
             = Returned st'.
Proof.
  induction remaining as [| remaining IH]; intros importIndex st Hlen;
    cbn [JSWebAssemblyCalleeGroup_bindImports]; [by eexists |].
  destruct (lookup_lt_is_Some_2 (importFunctionSignatureIndices moduleInformation) importIndex)
    as [signatureIndex ->]; [lia |].
  destruct (wasmToJS _ _ signatureIndex importIndex) as [[vm1 infos1] [v | []]].
  - apply IH. lia.
  - by eexists.
Qed.

(** X8. The constructor crashes only for want of a signature: when the
    module has a signature for every import it returns, whatever the
    generator does; and when it crashes, the module has fewer signatures than
    imports. *)
Theorem constructor_returns (vm : VM) (calleeGroup : Wasm_CalleeGroup)
    (moduleInformation : ModuleInformation) :
  (CalleeGroup_functionImportCount calleeGroup
     ≤ length (importFunctionSignatureIndices moduleInformation) →
   ∃ st, JSWebAssemblyCalleeGroup_new vm calleeGroup moduleInformation = Returned st) ∧
  (JSWebAssemblyCalleeGroup_new vm calleeGroup moduleInformation = Crashed →
   length (importFunctionSignatureIndices moduleInformation)
     < CalleeGroup_functionImportCount calleeGroup).
Proof.
  assert (Hret : CalleeGroup_functionImportCount calleeGroup
                   ≤ length (importFunctionSignatureIndices moduleInformation) →
                 ∃ st, JSWebAssemblyCalleeGroup_new vm calleeGroup moduleInformation
                         = Returned st).
  { intros Hlen. unfold JSWebAssemblyCalleeGroup_new. apply bindImports_returns. lia. }
  split; [exact Hret |].
  intros Hcrash.
  destruct (decide (CalleeGroup_functionImportCount calleeGroup
                      ≤ length (importFunctionSignatureIndices moduleInformation)))
    as [Hle | Hgt]; [| lia].
  destruct (Hret Hle) as [st Hst]. congruence.
Qed.

End CalleeGroupMore.

(** * Properties of [WTF::FixedVector] *)

Section FixedVectorProperties.
Context {T : Type} `{EqDecision T} `{Inhabited T}.

Implicit Types (v this other : FixedVector T) (l : list T).

Lemma Storage_isEmpty_nil l : Storage_isEmpty l = bool_decide (l = []).
Proof. unfold Storage_isEmpty. apply bool_decide_ext. by destruct l. Qed.

Lemma FixedVector_size_elements v : FixedVector_size v = length (FixedVector_elements v).
Proof. unfold FixedVector_size, FixedVector_elements. by destruct (FixedVector_m_storage v). Qed.

Lemma FixedVector_eq_bool_decide this other :
  FixedVector_eq this other
    = bool_decide (FixedVector_elements this = FixedVector_elements other).
Proof.
  unfold FixedVector_eq, FixedVector_elements.
  destruct (FixedVector_m_storage this) as [s |], (FixedVector_m_storage other) as [s' |];
    rewrite ?Storage_isEmpty_nil; unfold Storage_eq.
  - by apply bool_decide_ext.
  - by apply bool_decide_ext.
  - apply bool_decide_ext. split; congruence.
  - by rewrite bool_decide_true.
Qed.

(** Move assignment between two vectors of a store, and of a vector to
    itself. *)
Lemma FixedVector_assign_move_distinct (store : list (FixedVector T)) (this other : nat)
    thisVector otherVector :
  this ≠ other → store !! this = Some thisVector → store !! other = Some otherVector →
  FixedVector_assign_move this other store =
    Some (<[this := {| FixedVector_m_storage := FixedVector_m_storage otherVector |}]>
            (<[other := FixedVector_default]> store)).
Proof.
  intros Hne Hthis Hother. unfold FixedVector_assign_move. rewrite Hother. simpl.
  rewrite list_lookup_insert_ne by done. rewrite Hthis. done.
Qed.

Lemma FixedVector_assign_move_self (store : list (FixedVector T)) (this : nat) v :
  store !! this = Some v → FixedVector_assign_move this this store = Some store.
Proof.
  intros Hthis. unfold FixedVector_assign_move. rewrite Hthis. simpl.
  rewrite list_lookup_insert_eq by (by eapply lookup_lt_Some). simpl.
  rewrite list_insert_insert_eq. f_equal. apply list_insert_id. by destruct v.
Qed.

(** X9. [operator==] compares contents: two vectors are equal exactly
    when they hold the same elements in the same order, so a vector without
    storage and a vector with empty storage are equal, and [operator!=] is
    the negation. *)
Theorem FixedVector_eq_elements this other :
  FixedVector_eq this other
    = bool_decide (FixedVector_elements this = FixedVector_elements other) ∧
  FixedVector_ne this other
    = bool_decide (FixedVector_elements this ≠ FixedVector_elements other).
Proof.
  split; [apply FixedVector_eq_bool_decide |].
  unfold FixedVector_ne. rewrite FixedVector_eq_bool_decide. by rewrite bool_decide_not.
Qed.

(** X10. What the constructors build.  [FixedVector(size)] holds [size]
    default-constructed elements and [FixedVector(Vector)] the elements of
    the vector, in order; both allocate storage exactly when there is an
    element; moving a [Vector] in builds the same and leaves the [Vector]
    empty.  On every vector [size()] is the number of elements and
    [isEmpty()] holds exactly when [size()] is 0. *)
Theorem FixedVector_constructors :
  FixedVector_elements (@FixedVector_default T) = [] ∧
  (∀ size : nat,
     FixedVector_elements (@FixedVector_new T _ size) = replicate size inhabitant ∧
     FixedVector_size (@FixedVector_new T _ size) = size ∧
     (FixedVector_m_storage (@FixedVector_new T _ size) = None ↔ size = 0)) ∧
  (∀ l,
     FixedVector_elements (FixedVector_fromVector l) = l ∧
     FixedVector_size (FixedVector_fromVector l) = length l ∧
     (FixedVector_m_storage (FixedVector_fromVector l) = None ↔ l = []) ∧
     FixedVector_fromVector_move l = (FixedVector_fromVector l, [])) ∧
  (∀ v l, FixedVector_assign_vector v l = FixedVector_fromVector l) ∧
  (∀ v, FixedVector_isEmpty v = bool_decide (FixedVector_size v = 0)).
Proof.
  split; [done |]. split; [| split; [| split; [done |]]].
  - intros size. unfold FixedVector_new, FixedVector_size, FixedVector_elements,
      Storage_create, Storage_size; simpl.
    case_bool_decide as Hsize; simpl.
    + subst. by repeat split.
    + rewrite length_replicate. repeat split; try done; try by intros ->.
  - intros l. unfold FixedVector_fromVector_move, FixedVector_fromVector, FixedVector_size,
      FixedVector_elements, Storage_createFromVector, Storage_size; simpl.
    case_bool_decide as Hl; simpl.
    + destruct l; [| discriminate]. by repeat split.
    + repeat split; try done; try by intros ->.
  - intros v. unfold FixedVector_isEmpty, FixedVector_size, Storage_isEmpty, Storage_size.
    destruct (FixedVector_m_storage v); [done |]. by rewrite bool_decide_true.
Qed.

(** X11. No operation leaves allocated storage without elements: the
    constructors build vectors without such storage, and copying, swapping,
    assigning, moving and filling vectors without it give vectors without
    it.  For such vectors [operator==] holds exactly between identical
    vectors, and [isEmpty()] exactly when there is no storage. *)
Theorem FixedVector_compact_kept :
  FixedVector_compact (@FixedVector_default T) ∧
  (∀ size, FixedVector_compact (@FixedVector_new T _ size)) ∧
  (∀ l, FixedVector_compact (FixedVector_fromVector l)) ∧
  (∀ this other val,
     FixedVector_compact this → FixedVector_compact other →
     FixedVector_compact (FixedVector_copy other) ∧
     FixedVector_compact (FixedVector_assign this other) ∧
     FixedVector_compact (fst (FixedVector_swap this other)) ∧
     FixedVector_compact (snd (FixedVector_swap this other)) ∧
     FixedVector_compact (FixedVector_fill val this) ∧
     (FixedVector_eq this other = true ↔ this = other) ∧
     (FixedVector_isEmpty this = true ↔ FixedVector_m_storage this = None)) ∧
  (∀ (store store' : list (FixedVector T)) (this other : nat),
     Forall FixedVector_compact store →
     FixedVector_assign_move this other store = Some store' →
     Forall FixedVector_compact store').
Proof.
  unfold FixedVector_compact.
  split; [done |]. split; [| split; [| split]].
  - intros size. unfold FixedVector_new, Storage_create; simpl.
    case_bool_decide as Hsize; [done |]. destruct size; [done | discriminate].
  - intros l. unfold FixedVector_fromVector, Storage_createFromVector; simpl.
    case_bool_decide as Hl; [done |]. destruct l; [done | discriminate].
  - intros [s] [s'] val Hthis Hother; simpl in *.
    split; [by destruct s' |]. split; [by destruct s' |].
    split; [done |]. split; [done |].
    split; [| split].
    + unfold FixedVector_fill, Storage_fill; simpl. destruct s as [s |]; simpl; [| done].
      destruct s; [done | discriminate].
    + rewrite FixedVector_eq_bool_decide, bool_decide_eq_true.
      unfold FixedVector_elements; simpl.
      destruct s as [s |], s' as [s' |]; split; intros Heq; try congruence.
    + unfold FixedVector_isEmpty; simpl. destruct s as [s |]; [| done].
      rewrite Storage_isEmpty_nil, bool_decide_eq_true. split; congruence.
  - intros store store' this other Hstore Hmove.
    unfold FixedVector_assign_move in Hmove.
    destruct (store !! other) as [otherVector |] eqn:Hother; [| discriminate].
    simpl in Hmove.
    destruct (<[other := _]> store !! this) as [thisVector |]; [| discriminate].
    simpl in Hmove. injection Hmove as <-.
    apply Forall_insert; [apply Forall_insert; [done | done] |].
    simpl. by apply (Forall_lookup_1 _ _ _ _ Hstore Hother).
Qed.

(** X12. Assignment and swap.  Copy assignment makes [this] a copy of
    [other] whatever it held, so the two then compare equal, and assigning
    a vector to itself changes nothing.  Move assignment from another vector
    gives [this] the storage of [other] and leaves [other] without storage,
    every other vector as it was; move assignment of a vector to itself
    leaves it, and every vector, as it was.  [swap] exchanges the elements,
    and swapping twice restores both vectors. *)
Theorem FixedVector_assignment_and_swap :
  (∀ this other,
     FixedVector_elements (FixedVector_assign this other) = FixedVector_elements other ∧
     FixedVector_eq (FixedVector_assign this other) other = true) ∧
  (∀ v, FixedVector_assign v v = v) ∧
  (∀ (store : list (FixedVector T)) (this other : nat) thisVector otherVector,
     this ≠ other → store !! this = Some thisVector → store !! other = Some otherVector →
     ∃ store' thisVector',
       FixedVector_assign_move this other store = Some store' ∧
       store' !! this = Some thisVector' ∧
       FixedVector_m_storage thisVector' = FixedVector_m_storage otherVector ∧
       FixedVector_elements thisVector' = FixedVector_elements otherVector ∧
       store' !! other = Some FixedVector_default ∧
       length store' = length store ∧
       ∀ k, k ≠ this → k ≠ other → store' !! k = store !! k) ∧
  (∀ (store : list (FixedVector T)) (this : nat) v,
     store !! this = Some v → FixedVector_assign_move this this store = Some store) ∧
  (∀ (store : list (FixedVector T)) (this other : nat),
     FixedVector_assign_move this other store = None ↔
     store !! this = None ∨ store !! other = None) ∧
  (∀ this other,
     FixedVector_elements (fst (FixedVector_swap this other)) = FixedVector_elements other ∧
     FixedVector_elements (snd (FixedVector_swap this other)) = FixedVector_elements this ∧
     FixedVector_swap (fst (FixedVector_swap this other)) (snd (FixedVector_swap this other))
       = (this, other)).
Proof.
  assert (Hassign : ∀ this other,
            FixedVector_elements (FixedVector_assign this other) = FixedVector_elements other).
  { intros [s] [s']. unfold FixedVector_elements; simpl. by destruct s'. }
  split; [| split; [| split; [| split; [| split]]]].
  - intros this other. split; [apply Hassign |].
    rewrite FixedVector_eq_bool_decide, bool_decide_eq_true. apply Hassign.
  - intros [s]. unfold FixedVector_assign, FixedVector_copy, Storage_clone; simpl.
    by destruct s.
  - intros store this other thisVector otherVector Hne Hthis Hother.
    eexists _, _. split; [by eapply FixedVector_assign_move_distinct |].
    assert (this < length store) by (by eapply lookup_lt_Some).
    assert (other < length store) by (by eapply lookup_lt_Some).
    split; [apply list_lookup_insert_eq; by rewrite length_insert |].
    split; [done |]. split; [done |].
    split; [rewrite list_lookup_insert_ne by done; by apply list_lookup_insert_eq |].
    split; [by rewrite !length_insert |].
    intros k Hk Hk'. by rewrite !list_lookup_insert_ne.
  - intros store this v. apply FixedVector_assign_move_self.
  - intros store this other. unfold FixedVector_assign_move.
    destruct (store !! other) as [otherVector |] eqn:Hother; simpl.
    + destruct (decide (this = other)) as [-> | Hne].
      * rewrite list_lookup_insert_eq by (by eapply lookup_lt_Some). simpl.
        split; [done | intros [? | ?]; congruence].
      * rewrite list_lookup_insert_ne by done.
        destruct (store !! this); simpl; split; try done;
          try (intros [? | ?]; congruence); auto.
    + split; [by right | done].
  - by intros [s] [s'].
Qed.

(** X13. [fill] overwrites every element and keeps the size: afterward the
    vector holds [size()] copies of the value; on a vector without storage
    it does nothing. *)
Theorem FixedVector_fill_elements (val : T) v :
  FixedVector_elements (FixedVector_fill val v) = replicate (FixedVector_size v) val ∧
  FixedVector_size (FixedVector_fill val v) = FixedVector_size v ∧
  (FixedVector_m_storage v = None → FixedVector_fill val v = v).
Proof.
  destruct v as [[s |]]; unfold FixedVector_fill, FixedVector_elements, FixedVector_size,
    Storage_fill, Storage_size; simpl.
  - by rewrite length_replicate.
  - done.
Qed.

End FixedVectorProperties.

(** * The further properties at concrete inputs *)

Section MoreInstances.
#[local] Existing Instance exampleExternals.
#[local] Existing Instance exampleGenerator.

Lemma publications_commute_witness :
  LLIntCallee_setReplacement 1 BoundsChecking
    (LLIntCallee_setReplacement 2 Signaling exampleLLIntCallee) =
  LLIntCallee_setReplacement 2 Signaling
    (LLIntCallee_setReplacement 1 BoundsChecking exampleLLIntCallee) ∧
  LLIntCallee_setOSREntryCallee 1 BoundsChecking
    (LLIntCallee_setOSREntryCallee 2 Signaling exampleLLIntCallee) =
  LLIntCallee_setOSREntryCallee 2 Signaling
    (LLIntCallee_setOSREntryCallee 1 BoundsChecking exampleLLIntCallee).
Proof.
  destruct (@publications_commute exampleExternals) as (Hr & Ho & _).
  split.
  - apply Hr. discriminate.
  - apply Ho. discriminate.
Defined.

Lemma setOSREntryCallee_reads_back_witness :
  let o' := IsLLIntCallee (LLIntCallee_setOSREntryCallee 3 Signaling exampleLLIntCallee) in
  CalleeObject_osrEntryCallee Signaling o' = Some (Some 3%positive) ∧
  compilationModeOfClass o' = LLIntMode ∧
  llintFunctionCodeBlock o' = Some [].
Proof.
  apply (@setOSREntryCallee_reads_back exampleExternals 3%positive Signaling
           (IsLLIntCallee exampleLLIntCallee)).
  reflexivity.
Defined.

Lemma all_imports_bound_witness :
  JSWebAssemblyCalleeGroup_new (5 : VM) exampleCalleeGroup exampleModuleInformation =
  Returned
    (mkConstruction (2 : VM)
       (mkJSWebAssemblyCalleeGroup exampleCalleeGroup ([2; 1; 0] : CallLinkInfoBag)
          None [0x2000%N; 0x2010%N; 0x2020%N])
       [0; 1; 2]).
Proof.
  apply (@all_imports_bound exampleGenerator 5 exampleCalleeGroup exampleModuleInformation
           2 [2; 1; 0] [0x2000%N; 0x2010%N; 0x2020%N]).
  - simpl. lia.
  - reflexivity.
Defined.

Lemma constructor_result_shape_witness :
  let st :=
    @mkConstruction exampleGenerator 0
      (@mkJSWebAssemblyCalleeGroup exampleGenerator exampleCalleeGroup [0]
         (Some "Out of executable memory") [0x2000%N; nullptr; nullptr])
      [0; 1] in
  JSWebAssemblyCalleeGroup_new (1 : VM) exampleCalleeGroup exampleModuleInformation
    = Returned st ∧
  ∃ k, k ≤ 3 ∧ construction_calls st = seq 0 k ∧
    ((m_errorMessage (construction_this st) = None ∧ k = 3) ∨
     (m_errorMessage (construction_this st) = Some "Out of executable memory" ∧
      0 < k ∧
      ∀ j, k - 1 ≤ j < 3 →
           m_wasmToJSExitStubs (construction_this st) !! j = Some nullptr)).
Proof.
  intros st. split; [reflexivity |].
  exact (proj2 (proj2 (@constructor_result_shape exampleGenerator 1 exampleCalleeGroup
                         exampleModuleInformation st eq_refl))).
Defined.

Lemma constructor_returns_witness :
  (∃ st, JSWebAssemblyCalleeGroup_new (1 : VM) exampleCalleeGroup exampleModuleInformation
           = Returned st) ∧
  JSWebAssemblyCalleeGroup_new (5 : VM) exampleCalleeGroup
    (@mkModuleInformation exampleGenerator [10]) = Crashed ∧
  1 < 3.
Proof.
  split; [| split; [reflexivity |]].
  - apply (proj1 (@constructor_returns exampleGenerator 1 exampleCalleeGroup
                    exampleModuleInformation)).
    simpl. lia.
  - apply (proj2 (@constructor_returns exampleGenerator 5 exampleCalleeGroup
                    (@mkModuleInformation exampleGenerator [10]))).
    reflexivity.
Defined.

Lemma FixedVector_compact_kept_witness :
  let this := FixedVector_fromVector [1; 2; 3] in
  let other := @FixedVector_new nat _ 2 in
  FixedVector_compact (FixedVector_assign this other) ∧
  FixedVector_compact (FixedVector_fill 7 this) ∧
  (FixedVector_eq this other = true ↔ this = other) ∧
  FixedVector_assign_move 0 1 [this; other] = Some [other; FixedVector_default] ∧
  Forall FixedVector_compact [other; @FixedVector_default nat].
Proof.
  intros this other.
  destruct (@FixedVector_compact_kept nat _ _) as (Hdefault & Hnew & Hvector & Hkept & Hmove).
  destruct (Hkept this other 7 (Hvector [1; 2; 3]) (Hnew 2))
    as (_ & Hassign & _ & _ & Hfill & Heq & _).
  split; [exact Hassign |]. split; [exact Hfill |]. split; [exact Heq |].
  split; [reflexivity |].
  apply (Hmove [this; other] [other; FixedVector_default] 0 1); [| reflexivity].
  apply Forall_cons; split; [apply Hvector |].
  apply Forall_cons; split; [apply Hnew | apply Forall_nil_2].
Defined.

Lemma FixedVector_assignment_and_swap_witness :
  let v := FixedVector_fromVector [1; 2; 3] in
  let w := @FixedVector_new nat _ 2 in
  FixedVector_assign_move 0 0 [v; w] = Some [v; w] ∧
  ∃ store' thisVector',
    FixedVector_assign_move 0 1 [v; w] = Some store' ∧
    store' !! 0 = Some thisVector' ∧
    FixedVector_elements thisVector' = [0; 0] ∧
    store' !! 1 = Some FixedVector_default.
Proof.
  intros v w.
  destruct (@FixedVector_assignment_and_swap nat _) as (_ & _ & Hmove & Hself & _).
  split.
  - apply (Hself [v; w] 0 v). reflexivity.
  - destruct (Hmove [v; w] 0 1 v w) as (store' & thisVector' & Hrun & Hthis & _ & Helems
                                          & Hother & _); [discriminate | reflexivity
                                                          | reflexivity |].
    exists store', thisVector'. by repeat split.
Defined.

Lemma FixedVector_fill_elements_witness :
  FixedVector_fill 7 (@FixedVector_default nat) = FixedVector_default ∧
  FixedVector_elements (FixedVector_fill 7 (FixedVector_fromVector [1; 2; 3])) = [7; 7; 7].
Proof.
  split.
  - apply (proj2 (proj2 (@FixedVector_fill_elements nat 7 FixedVector_default))).
    reflexivity.
  - apply (proj1 (@FixedVector_fill_elements nat 7 (FixedVector_fromVector [1; 2; 3]))).
Defined.

End MoreInstances.
